(** * Exif study: the APP1 / TIFF / IFD decoder of [main.go]

    A shallow embedding of the decoder ([parseJPEGHeader], [parseAPP1],
    [parseTIFF], [parseIFD], [parseIFDElement], [IFDElement.Length],
    [IFD.FindLinkedIFD], [readBytes]), of the writer ([writeBytes],
    [writeJPEGHeader]) and, in module [Rev1], of the first revision of the
    decoder, followed by the properties of this code.

    Conventions of the embedding.
    - A Go [[]byte] is a [list byte].  Every slice expression of the decoder
      whose upper bound can exceed the length is applied to a slice whose
      capacity equals its length (the buffer made by [readBytes], or a
      tail [b[k:]] of it), so the run-time bound [hi <= cap] is [hi <= len].
    - [uint16] and [uint32] values are [Z] with the wrap-around written out;
      [int] is the 64-bit signed integer of the usual Go targets.
    - A Go function returning [(T, error)] that may also panic at run time
      (slice bounds out of range) returns a three-way [result]. *)

From Stdlib Require Import ZArith List Bool Lia.
From Stdlib.Strings Require Import Byte.
Import ListNotations.
Open Scope Z_scope.

(** ** Results: value, returned error, or run-time panic *)

(** The messages built with [fmt.Errorf], one constructor per format string. *)
Inductive error : Type :=
| SOINotFound                                  (* "SOI not found" *)
| APP1MarkerNotFound                           (* "APP1 marker not found" *)
| ExifMarkerNotFound                           (* "Exif marker not found" *)
| CouldNotRead (n : Z)                         (* "Could not read %d bytes: %s" *)
| CouldNotReadGot (n got : Z)                  (* "Could not read %d bytes: got %d bytes" *)
| InvalidEndian (b : list byte)                (* "Invalid endian: %x" *)
| InvalidTIFFVersion (b : list byte)           (* "Invalid TIFF version: %x" *)
| CouldNotParse0thIFD (e : error)              (* "Could not parse 0th IFD: %s" *)
| CouldNotParseExifIFD (e : error)             (* "Could not parse Exif IFD: %s" *)
| CouldNotParseGPSIFD (e : error)              (* "Could not parse GPS IFD: %s" *)
| CouldNotParseInteroperabilityIFD (e : error) (* "Could not parse Interoperability IFD: %s" *)
| CouldNotParse1stIFD (e : error)              (* "Could not parse 1st IFD: %s" *)
| CouldNotParseIFDElement (i offset : Z)       (* "Could not parse IFD element #%d at 0x%x" *)
| IFDElementExpects12 (got : Z)                (* "IFDElement expects 12 bytes but got %d bytes" *)
| CouldNotParseTIFF (e : error)                (* "Could not parse TIFF: %s" *)
| CouldNotParseAPP1 (e : error)                (* "Could not parse APP1: %s" *)
| CouldNotParseJPEGHeader (e : error).         (* "Could not parse JPEG header: %s" *)

Inductive result (A : Type) : Type :=
| Ok (a : A)
| Err (e : error)
| Panic.

Arguments Ok {A} a.
Arguments Err {A} e.
Arguments Panic {A}.

Definition bind {A B : Type} (r : result A) (k : A -> result B) : result B :=
  match r with
  | Ok a => k a
  | Err e => Err e
  | Panic => Panic
  end.

(** [wrap f r]: the Go idiom [if err != nil { return nil, fmt.Errorf(f, err) }]. *)
Definition wrap {A : Type} (f : error -> error) (r : result A) : result A :=
  match r with
  | Ok a => Ok a
  | Err e => Err (f e)
  | Panic => Panic
  end.

Notation "x <- c1 ;; c2" := (bind c1 (fun x => c2))
  (at level 61, c1 at next level, right associativity).

(** ** Machine integers *)

Definition uint16 (x : Z) : Z := x mod 2 ^ 16.
Definition uint32 (x : Z) : Z := x mod 2 ^ 32.
(** [int]: two's complement on 64 bits. *)
Definition int (x : Z) : Z := (x + 2 ^ 63) mod 2 ^ 64 - 2 ^ 63.

Definition add16 (x y : Z) : Z := uint16 (x + y).
Definition mul16 (x y : Z) : Z := uint16 (x * y).
Definition sub16 (x y : Z) : Z := uint16 (x - y).
Definition add32 (x y : Z) : Z := uint32 (x + y).
Definition addint (x y : Z) : Z := int (x + y).
Definition mulint (x y : Z) : Z := int (x * y).

(** ** Byte slices *)

Definition len (b : list byte) : Z := Z.of_nat (length b).

Definition byteval (x : byte) : Z := Z.of_N (Byte.to_N x).

(** [b[lo:hi]]; panics unless [0 <= lo <= hi <= len b]. *)
Definition slice (b : list byte) (lo hi : Z) : result (list byte) :=
  if (0 <=? lo) && (lo <=? hi) && (hi <=? len b)
  then Ok (firstn (Z.to_nat (hi - lo)) (skipn (Z.to_nat lo) b))
  else Panic.

(** [b[lo:]] *)
Definition sliceFrom (b : list byte) (lo : Z) : result (list byte) :=
  slice b lo (len b).

(** [bytes.Compare(a, b) == 0] *)
Fixpoint bytesEqual (a b : list byte) : bool :=
  match a, b with
  | [], [] => true
  | x :: a', y :: b' => Byte.eqb x y && bytesEqual a' b'
  | _, _ => false
  end.

(** ** encoding/binary *)

Inductive ByteOrder : Type := BigEndian | LittleEndian.

(** [binary.ByteOrder.Uint16]: indexes [b[1]], so it panics on a shorter slice. *)
Definition Uint16 (endian : ByteOrder) (b : list byte) : result Z :=
  match b with
  | b0 :: b1 :: _ =>
      match endian with
      | BigEndian => Ok (Z.lor (byteval b1) (Z.shiftl (byteval b0) 8))
      | LittleEndian => Ok (Z.lor (byteval b0) (Z.shiftl (byteval b1) 8))
      end
  | _ => Panic
  end.

(** [binary.ByteOrder.Uint32]: indexes [b[3]]. *)
Definition Uint32 (endian : ByteOrder) (b : list byte) : result Z :=
  match b with
  | b0 :: b1 :: b2 :: b3 :: _ =>
      match endian with
      | BigEndian =>
          Ok (Z.lor (Z.lor (Z.lor (byteval b3) (Z.shiftl (byteval b2) 8))
                           (Z.shiftl (byteval b1) 16)) (Z.shiftl (byteval b0) 24))
      | LittleEndian =>
          Ok (Z.lor (Z.lor (Z.lor (byteval b0) (Z.shiftl (byteval b1) 8))
                           (Z.shiftl (byteval b2) 16)) (Z.shiftl (byteval b3) 24))
      end
  | _ => Panic
  end.

(** ** The data model *)

Record IFDElement : Type := mkIFDElement {
  Tag : Z;               (* uint16 *)
  Type_ : Z;             (* IFDElementType, a uint16 *)
  Count : Z;             (* uint32 *)
  Value : list byte;
  rawValue : list byte
}.

Record IFD : Type := mkIFD {
  Elements : list IFDElement;
  rawValues : list byte
}.

(** The [*IFD] fields are pointers: [None] is [nil]. *)
Record APP1 : Type := mkAPP1 {
  Endian : ByteOrder;
  rawPreIFD : list byte;
  IFD0 : option IFD;
  ExifIFD : option IFD;
  GPSIFD : option IFD;
  InteroperabilityIFD : option IFD;
  IFD1 : option IFD
}.

Record JPEGHeader : Type := mkJPEGHeader {
  hAPP1 : option APP1
}.

(** ** IFD elements *)

(** [func (e *IFDElement) Length() int] *)
Definition Length (e : IFDElement) : Z :=
  if Type_ e =? 3 then mulint (int (Count e)) 2
  else if Type_ e =? 4 then mulint (int (Count e)) 4
  else if Type_ e =? 5 then mulint (int (Count e)) 8
  else if Type_ e =? 9 then mulint (int (Count e)) 8
  else if Type_ e =? 10 then mulint (int (Count e)) 16
  else int (Count e).

(** The factor of each case of the [switch] in [Length]: the size the
    decoder gives to one item of a type code. *)
Definition typeSize (ty : Z) : Z :=
  if ty =? 3 then 2
  else if ty =? 4 then 4
  else if ty =? 5 then 8
  else if ty =? 9 then 8
  else if ty =? 10 then 16
  else 1.

(** [func (e *IFDElement) Uint32(endian) uint32] *)
Definition ElementUint32 (e : IFDElement) (endian : ByteOrder) : result Z :=
  Uint32 endian (rawValue e).

(** The struct literal that opens [parseIFDElement]: the four fields read
    from the 12-byte slot, [Value] still unset. *)
Definition newIFDElement (b : list byte) (endian : ByteOrder)
  : result IFDElement :=
  s0 <- slice b 0 2 ;;
  tag <- Uint16 endian s0 ;;
  s1 <- slice b 2 4 ;;
  ty <- Uint16 endian s1 ;;
  s2 <- slice b 4 8 ;;
  cnt <- Uint32 endian s2 ;;
  raw <- slice b 8 12 ;;
  Ok (mkIFDElement tag ty cnt [] raw).

(** The assignment [e.Value = v]. *)
Definition setValue (e : IFDElement) (v : list byte) : IFDElement :=
  mkIFDElement (Tag e) (Type_ e) (Count e) v (rawValue e).

(** [func parseIFDElement(b []byte, ifd []byte, endian)], returning a
    pointer to [IFDElement] and an [error] *)
Definition parseIFDElement (b ifd : list byte) (endian : ByteOrder)
  : result IFDElement :=
  if negb (len b =? 12) then Err (IFDElementExpects12 (len b))
  else
    e <- newIFDElement b endian ;;
    if Length e >? 4 then
      offset <- ElementUint32 e endian ;;
      v <- slice ifd offset (add32 offset (uint32 (Length e))) ;;
      Ok (setValue e v)
    else
      Ok (setValue e (rawValue e)).

(** ** Directories *)

(** The loop [for i := 0; i < int(elementCount); i++] of [parseIFD], with
    [n] iterations left and loop variable [i]. *)
Fixpoint parseElements (b : list byte) (endian : ByteOrder) (n : nat) (i : Z)
  : result (list IFDElement) :=
  match n with
  | O => Ok []
  | S n' =>
      let offset := addint 2 (mulint i 12) in
      s <- slice b offset (addint offset 12) ;;
      match parseIFDElement s b endian with
      | Ok e => rest <- parseElements b endian n' (i + 1) ;; Ok (e :: rest)
      | Err _ => Err (CouldNotParseIFDElement i offset)
      | Panic => Panic
      end
  end.

(** The [uint16] expressions [2+elementCount*12] and [2+elementCount*12+4]
    of [parseIFD]: the bounds of the trailer slice; the second one is also
    [valuesOffset] before its conversion to [int]. *)
Definition trailerStart (elementCount : Z) : Z :=
  add16 2 (mul16 elementCount 12).
Definition trailerEnd (elementCount : Z) : Z :=
  add16 (add16 2 (mul16 elementCount 12)) 4.

(** [elementCount := endian.Uint16(b[0:2])] *)
Definition readElementCount (b : list byte) (endian : ByteOrder) : result Z :=
  s0 <- slice b 0 2 ;;
  Uint16 endian s0.

(** [valuesLength := int(endian.Uint32(b[2+elementCount*12 : 2+elementCount*12+4]))] *)
Definition readValuesLength (b : list byte) (endian : ByteOrder)
    (elementCount : Z) : result Z :=
  s1 <- slice b (trailerStart elementCount) (trailerEnd elementCount) ;;
  v <- Uint32 endian s1 ;;
  Ok (int v).

(** [func parseIFD(b []byte, endian)], returning a pointer to [IFD] and an
    [error] *)
Definition parseIFD (b : list byte) (endian : ByteOrder) : result IFD :=
  elementCount <- readElementCount b endian ;;
  let valuesOffset := int (trailerEnd elementCount) in
  valuesLength <- readValuesLength b endian elementCount ;;
  raw <- slice b valuesOffset (addint valuesOffset valuesLength) ;;
  els <- parseElements b endian (Z.to_nat (int elementCount)) 0 ;;
  Ok (mkIFD els raw).

(** The loop of [FindLinkedIFD] over [d.Elements]. *)
Fixpoint findLinked (els : list IFDElement) (tag : Z) (b : list byte)
    (endian : ByteOrder) : result (option IFD) :=
  match els with
  | [] => Ok None
  | e :: rest =>
      if Tag e =? tag then
        offset <- ElementUint32 e endian ;;
        s <- sliceFrom b offset ;;
        d <- parseIFD s endian ;;
        Ok (Some d)
      else findLinked rest tag b endian
  end.

(** [func (d *IFD) FindLinkedIFD(tag uint16, b []byte, endian)], returning a
    pointer to [IFD] and an [error] *)
Definition FindLinkedIFD (d : IFD) (tag : Z) (b : list byte)
    (endian : ByteOrder) : result (option IFD) :=
  findLinked (Elements d) tag b endian.

(** ** The TIFF structure *)

(** The statements of [parseTIFF] up to [ifdOffset := ...]: byte order,
    version constant and the offset of the 0th IFD. *)
Definition readTIFFHeader (b : list byte) : result (ByteOrder * Z) :=
  m <- slice b 0 2 ;;
  endian <- (if bytesEqual m [x4d; x4d] then Ok BigEndian
             else if bytesEqual m [x49; x49] then Ok LittleEndian
             else Err (InvalidEndian m)) ;;
  s1 <- slice b 2 4 ;;
  version <- Uint16 endian s1 ;;
  if negb (version =? 42) then Err (InvalidTIFFVersion s1)
  else
    s2 <- slice b 4 8 ;;
    ifdOffset <- Uint32 endian s2 ;;
    Ok (endian, ifdOffset).

(** The statements of [parseTIFF] after [app1.IFD0] is set: the three
    linked IFDs and the 1st IFD. *)
Definition parseLinkedIFDs (b : list byte) (endian : ByteOrder)
    (ifdOffset : Z) (pre : list byte) (ifd0 : IFD) : result APP1 :=
  exif <- wrap CouldNotParseExifIFD (FindLinkedIFD ifd0 34665 b endian) ;;
  gps <- wrap CouldNotParseGPSIFD (FindLinkedIFD ifd0 34853 b endian) ;;
  interop <- wrap CouldNotParseInteroperabilityIFD
               (FindLinkedIFD ifd0 40965 b endian) ;;
  s4 <- sliceFrom b (addint (int ifdOffset) (len (rawValues ifd0))) ;;
  ifd1 <- wrap CouldNotParse1stIFD (parseIFD s4 endian) ;;
  Ok (mkAPP1 endian pre (Some ifd0) exif gps interop (Some ifd1)).

(** [func parseTIFF(b []byte)], returning a pointer to [APP1] and an
    [error] *)
Definition parseTIFF (b : list byte) : result APP1 :=
  h <- readTIFFHeader b ;;
  let '(endian, ifdOffset) := h in
  pre <- slice b 8 ifdOffset ;;
  s3 <- sliceFrom b ifdOffset ;;
  ifd0 <- wrap CouldNotParse0thIFD (parseIFD s3 endian) ;;
  parseLinkedIFDs b endian ifdOffset pre ifd0.

(** ** Reading from the file *)

(** The [io.Reader] is the opened file: its state is the list of bytes not
    yet consumed.  One [Read] into a buffer of [n] bytes delivers
    [min n available] bytes; with [n > 0] and nothing left it reports
    [io.EOF]. *)
Definition Reader : Type := list byte.

(** [func readBytes(r io.Reader, length int) ([]byte, error)], returning
    the bytes and the reader after the call.  [make] panics on a negative
    length. *)
Definition readBytes (r : Reader) (length : Z) : result (list byte * Reader) :=
  if length <? 0 then Panic
  else if length =? 0 then Ok ([], r)
  else if len r =? 0 then Err (CouldNotRead length)
  else if len r <? length then Err (CouldNotReadGot length (len r))
  else Ok (firstn (Z.to_nat length) r, skipn (Z.to_nat length) r).

Definition soiMarker : list byte := [xff; xd8].
Definition app1marker : list byte := [xff; xe1].
Definition exifMarker : list byte := [x45; x78; x69; x66; x00; x00].

(** [binary.BigEndian.Uint16] *)
Definition BigEndianUint16 (b : list byte) : result Z := Uint16 BigEndian b.

(** The statements of [parseAPP1] up to and including the last [readBytes]:
    the slice that [parseAPP1] passes to [parseTIFF]. *)
Definition readTIFFPayload (r : Reader) : result (list byte * Reader) :=
  x <- readBytes r 2 ;;
  let '(b, r) := x in
  if negb (bytesEqual b app1marker) then Err APP1MarkerNotFound
  else
    x <- readBytes r 2 ;;
    let '(b, r) := x in
    app1Length <- BigEndianUint16 b ;;
    let tiffLength := sub16 app1Length 10 in
    x <- readBytes r 6 ;;
    let '(b, r) := x in
    if negb (bytesEqual b exifMarker) then Err ExifMarkerNotFound
    else readBytes r (int tiffLength).

(** [func parseAPP1(r io.Reader)], returning a pointer to [APP1] and an [error] *)
Definition parseAPP1 (r : Reader) : result (APP1 * Reader) :=
  x <- readTIFFPayload r ;;
  let '(b, r) := x in
  app1 <- wrap CouldNotParseTIFF (parseTIFF b) ;;
  Ok (app1, r).

(** [func parseJPEGHeader(r io.Reader)], returning a pointer to [JPEGHeader] and an [error] *)
Definition parseJPEGHeader (r : Reader) : result (JPEGHeader * Reader) :=
  x <- readBytes r 2 ;;
  let '(b, r) := x in
  if negb (bytesEqual b soiMarker) then Err SOINotFound
  else
    y <- wrap CouldNotParseAPP1 (parseAPP1 r) ;;
    let '(app1, r) := y in
    Ok (mkJPEGHeader (Some app1), r).

(** [func parse(r io.Reader)], returning a pointer to [JPEGHeader] and an [error] *)
Definition parse (r : Reader) : result (JPEGHeader * Reader) :=
  wrap CouldNotParseJPEGHeader (parseJPEGHeader r).

(** Bytes written as numbers, for the concrete buffers below. *)
Definition byteOf (z : Z) : byte :=
  match Byte.of_N (Z.to_N z) with
  | Some x => x
  | None => x00
  end.

Definition bytesOf (l : list Z) : list byte := map byteOf l.

(** ** Writing to a file *)

(** The messages of [writeBytes]; [cause] is the error of the writer. *)
Inductive writeError (E : Type) : Type :=
| CouldNotWrite (n : Z) (cause : E)        (* "Could not write %d bytes: %s" *)
| CouldNotWriteWritten (n written : Z).    (* "Could not write %d bytes: written %d bytes" *)

Arguments CouldNotWrite {E} n cause.
Arguments CouldNotWriteWritten {E} n written.

Section Writing.

(** An [io.Writer]: its state, its errors, and [w.Write(b)], which gives
    the writer after the call, the count it reports and its error
    ([None] is [nil]). *)
Variables (W E : Type).
Variable Write : W -> list byte -> W * Z * option E.

(** [func writeBytes(w io.Writer, b []byte) error] *)
Definition writeBytes (w : W) (b : list byte) : W * option (writeError E) :=
  let '(w', n, err) := Write w b in
  match err with
  | Some e => (w', Some (CouldNotWrite (len b) e))
  | None =>
      if negb (n =? len b) then (w', Some (CouldNotWriteWritten (len b) n))
      else (w', None)
  end.

(** [func writeJPEGHeader(w io.Writer) error]; after the SOI marker the
    source has only a TODO. *)
Definition writeJPEGHeader (w : W) : W * option (writeError E) :=
  let '(w', err) := writeBytes w soiMarker in
  match err with
  | Some e => (w', Some e)
  | None => (w', None)
  end.

End Writing.

Arguments writeBytes {W E} Write w b.
Arguments writeJPEGHeader {W E} Write w.

(** A writer that takes every byte: the bytes written so far, in order. *)
Definition fileWrite (w : list byte) (b : list byte)
  : list byte * Z * option unit :=
  (w ++ b, len b, None).

(** ** The first revision of the decoder

    The first part of [main.go]: an element keeps the 4-byte field as
    [ValueOffset] and [rawValue], and no value is resolved.  [parseIFD] has
    the same expressions for the entry count, the trailer and the values
    region as the second revision. *)
Module Rev1.

Record IFDElement : Type := mkIFDElement {
  Tag : Z;
  Type_ : Z;
  Count : Z;
  ValueOffset : Z;       (* uint32 *)
  rawValue : list byte
}.

Record IFD : Type := mkIFD {
  Elements : list IFDElement;
  rawValues : list byte
}.

Record APP1Segment : Type := mkAPP1Segment {
  Endian : ByteOrder;
  rawPreIFD : list byte;
  IFD0 : option IFD;
  ExifIFD : option IFD;
  GPSIFD : option IFD;
  InteroperabilityIFD : option IFD;
  IFD1 : option IFD
}.

(** [func parseIFDElement(data []byte, endian)] *)
Definition parseIFDElement (data : list byte) (endian : ByteOrder)
  : result IFDElement :=
  if negb (len data =? 12) then Err (IFDElementExpects12 (len data))
  else
    s0 <- slice data 0 2 ;;
    tag <- Uint16 endian s0 ;;
    s1 <- slice data 2 4 ;;
    ty <- Uint16 endian s1 ;;
    s2 <- slice data 4 8 ;;
    cnt <- Uint32 endian s2 ;;
    s3 <- slice data 8 12 ;;
    valueOffset <- Uint32 endian s3 ;;
    raw <- slice data 8 12 ;;
    Ok (mkIFDElement tag ty cnt valueOffset raw).

(** The loop of [parseIFD]. *)
Fixpoint parseElements (data : list byte) (endian : ByteOrder) (n : nat)
    (i : Z) : result (list IFDElement) :=
  match n with
  | O => Ok []
  | S n' =>
      let offset := addint 2 (mulint i 12) in
      s <- slice data offset (addint offset 12) ;;
      match parseIFDElement s endian with
      | Ok e => rest <- parseElements data endian n' (i + 1) ;; Ok (e :: rest)
      | Err _ => Err (CouldNotParseIFDElement i offset)
      | Panic => Panic
      end
  end.

(** [func parseIFD(data []byte, endian)] *)
Definition parseIFD (data : list byte) (endian : ByteOrder) : result IFD :=
  elementCount <- readElementCount data endian ;;
  let valuesOffset := int (trailerEnd elementCount) in
  valuesLength <- readValuesLength data endian elementCount ;;
  raw <- slice data valuesOffset (addint valuesOffset valuesLength) ;;
  els <- parseElements data endian (Z.to_nat (int elementCount)) 0 ;;
  Ok (mkIFD els raw).

(** The loop of [FindLinkedIFD]. *)
Fixpoint findLinked (els : list IFDElement) (tag : Z) (data : list byte)
    (endian : ByteOrder) : result (option IFD) :=
  match els with
  | [] => Ok None
  | element :: rest =>
      if Tag element =? tag then
        s <- sliceFrom data (ValueOffset element) ;;
        d <- parseIFD s endian ;;
        Ok (Some d)
      else findLinked rest tag data endian
  end.

(** [func (d *IFD) FindLinkedIFD(tag uint16, data []byte, endian)] *)
Definition FindLinkedIFD (d : IFD) (tag : Z) (data : list byte)
    (endian : ByteOrder) : result (option IFD) :=
  findLinked (Elements d) tag data endian.

(** [func parseTIFF(data []byte)] *)
Definition parseTIFF (data : list byte) : result APP1Segment :=
  h <- readTIFFHeader data ;;
  let '(endian, ifdOffset) := h in
  pre <- slice data 8 ifdOffset ;;
  s3 <- sliceFrom data ifdOffset ;;
  ifd0 <- wrap CouldNotParse0thIFD (parseIFD s3 endian) ;;
  exif <- wrap CouldNotParseExifIFD (FindLinkedIFD ifd0 34665 data endian) ;;
  gps <- wrap CouldNotParseGPSIFD (FindLinkedIFD ifd0 34853 data endian) ;;
  interop <- wrap CouldNotParseInteroperabilityIFD
               (FindLinkedIFD ifd0 40965 data endian) ;;
  s4 <- sliceFrom data (addint (int ifdOffset) (len (rawValues ifd0))) ;;
  ifd1 <- wrap CouldNotParse1stIFD (parseIFD s4 endian) ;;
  Ok (mkAPP1Segment endian pre (Some ifd0) exif gps interop (Some ifd1)).

(** The messages of the first revision's functions that read the file;
    those of [parseTIFF] are the ones of the second revision. *)
Inductive fileError : Type :=
| FSOINotFound                          (* "SOI not found" *)
| FAPP1MarkerNotFound                   (* "APP1 marker not found" *)
| FExifMarkerNotFound                   (* "Exif marker not found" *)
| FCouldNotRead (n : Z)                 (* "Could not read %d bytes: %s" *)
| FExpectButGot (n got : Z)             (* "Expect %d bytes but got %d bytes" *)
| FCouldNotParseAPP1Segment (e : error) (* "Could not parse APP1 segment: %s" *)
| FCouldNotParseAPP1 (e : fileError)    (* "Could not parse APP1: %s" *)
| FCouldNotParseJPEGHeader (e : fileError). (* "Could not parse JPEG header: %s" *)

Inductive fileResult (A : Type) : Type :=
| FOk (a : A)
| FErr (e : fileError)
| FPanic.

Arguments FOk {A} a.
Arguments FErr {A} e.
Arguments FPanic {A}.

Definition fbind {A B : Type} (r : fileResult A) (k : A -> fileResult B)
  : fileResult B :=
  match r with
  | FOk a => k a
  | FErr e => FErr e
  | FPanic => FPanic
  end.

(** A slice expression or a [binary] call inside a reading function
    (they return no error). *)
Definition lift {A : Type} (r : result A) : fileResult A :=
  match r with
  | Ok a => FOk a
  | Err _ => FPanic
  | Panic => FPanic
  end.

Record JPEGHeader : Type := mkJPEGHeader {
  hAPP1Segment : option APP1Segment
}.

(** [func readBytes(r io.Reader, length int) ([]byte, error)] *)
Definition readBytes (r : Reader) (length : Z)
  : fileResult (list byte * Reader) :=
  if length <? 0 then FPanic
  else if length =? 0 then FOk ([], r)
  else if len r =? 0 then FErr (FCouldNotRead length)
  else if len r <? length then FErr (FExpectButGot length (len r))
  else FOk (firstn (Z.to_nat length) r, skipn (Z.to_nat length) r).

(** The statements of [parseAPP1Segment] up to and including the second
    [readBytes]: the slice passed to [parseTIFF]. *)
Definition readTIFFPayload (r : Reader) : fileResult (list byte * Reader) :=
  fbind (readBytes r 10) (fun x =>
  let '(data, r) := x in
  fbind (lift (slice data 0 2)) (fun m =>
  if negb (bytesEqual m app1marker) then FErr FAPP1MarkerNotFound
  else
    fbind (lift (slice data 4 10)) (fun ex =>
    if negb (bytesEqual ex exifMarker) then FErr FExifMarkerNotFound
    else
      fbind (lift (slice data 2 4)) (fun lb =>
      fbind (lift (BigEndianUint16 lb)) (fun app1Length =>
      let tiffLength := sub16 app1Length 10 in
      readBytes r (int tiffLength)))))).

(** [func parseAPP1Segment(r io.Reader)] *)
Definition parseAPP1Segment (r : Reader) : fileResult (APP1Segment * Reader) :=
  fbind (readTIFFPayload r) (fun x =>
  let '(data, r) := x in
  match parseTIFF data with
  | Ok app1 => FOk (app1, r)
  | Err e => FErr (FCouldNotParseAPP1Segment e)
  | Panic => FPanic
  end).

(** [func parseJPEGHeader(r io.Reader)] *)
Definition parseJPEGHeader (r : Reader) : fileResult (JPEGHeader * Reader) :=
  fbind (readBytes r 2) (fun x =>
  let '(data, r) := x in
  fbind (lift (slice data 0 2)) (fun m =>
  if negb (bytesEqual m [xff; xd8]) then FErr FSOINotFound
  else
    match parseAPP1Segment r with
    | FOk (app1, r) => FOk (mkJPEGHeader (Some app1), r)
    | FErr e => FErr (FCouldNotParseAPP1 e)
    | FPanic => FPanic
    end)).

(** [func parse(r io.Reader)] *)
Definition parse (r : Reader) : fileResult (JPEGHeader * Reader) :=
  match parseJPEGHeader r with
  | FOk h => FOk h
  | FErr e => FErr (FCouldNotParseJPEGHeader e)
  | FPanic => FPanic
  end.

End Rev1.

(** What the first revision keeps of an element, a directory and a
    document of the second one: the value is dropped and the 4-byte field
    is also kept as a number. *)
Definition toRev1Element (endian : ByteOrder) (e : IFDElement)
  : Rev1.IFDElement :=
  Rev1.mkIFDElement (Tag e) (Type_ e) (Count e)
    (match ElementUint32 e endian with Ok v => v | _ => 0 end)
    (rawValue e).

Definition toRev1IFD (endian : ByteOrder) (d : IFD) : Rev1.IFD :=
  Rev1.mkIFD (map (toRev1Element endian) (Elements d)) (rawValues d).

Definition toRev1 (a : APP1) : Rev1.APP1Segment :=
  Rev1.mkAPP1Segment (Endian a) (rawPreIFD a)
    (option_map (toRev1IFD (Endian a)) (IFD0 a))
    (option_map (toRev1IFD (Endian a)) (ExifIFD a))
    (option_map (toRev1IFD (Endian a)) (GPSIFD a))
    (option_map (toRev1IFD (Endian a)) (InteroperabilityIFD a))
    (option_map (toRev1IFD (Endian a)) (IFD1 a)).

Definition toRev1Header (h : JPEGHeader) : Rev1.JPEGHeader :=
  Rev1.mkJPEGHeader (option_map toRev1 (hAPP1 h)).

(** ** Predicates used in the statements *)

(** No entry of the directory carries the tag: the case in which the loop
    of [FindLinkedIFD] runs to its end. *)
Definition absentTag (d : IFD) (tag : Z) : Prop :=
  forall x, In x (Elements d) -> Tag x <> tag.

(** The range of an indirect value fits in the buffer [ifd]: the condition
    under which the slice expression of [parseIFDElement] does not panic. *)
Definition valueFits (ifd : list byte) (endian : ByteOrder) (e0 : IFDElement)
  : Prop :=
  4 < Length e0 ->
  forall o, ElementUint32 e0 endian = Ok o ->
            o + uint32 (Length e0) <= len ifd /\
            o + uint32 (Length e0) < 2 ^ 32.

(** The 12-byte slot of entry [k] of the directory at the start of [b]. *)
Definition slotAt (b : list byte) (k : Z) : list byte :=
  firstn 12 (skipn (Z.to_nat (2 + 12 * k)) b).

(** * Concrete inputs *)

(** Concrete 12-byte entry slots (little endian):
    tag 0x010f, then type, count and the 4-byte field. *)
Definition slotByte1 : list byte :=      (* BYTE, count 1, field AA BB CC DD *)
  bytesOf [0x0f; 0x01; 1; 0; 1; 0; 0; 0; 0xAA; 0xBB; 0xCC; 0xDD].
Definition slotLong2 : list byte :=      (* LONG, count 2, field = offset 100 *)
  bytesOf [0x0f; 0x01; 4; 0; 2; 0; 0; 0; 100; 0; 0; 0].
Definition slotType13 : list byte :=     (* type code 13, count 1 *)
  bytesOf [0x0f; 0x01; 13; 0; 1; 0; 0; 0; 2; 0; 0; 0].
Definition slotHuge : list byte :=       (* type 10, count 2^28 + 1, offset 2 *)
  bytesOf [0x0f; 0x01; 10; 0; 1; 0; 0; 0x10; 2; 0; 0; 0].
Definition ifd12 : list byte := bytesOf [0; 1; 2; 3; 4; 5; 6; 7; 8; 9; 10; 11].
Definition ifd20 : list byte :=
  bytesOf [0; 1; 2; 3; 4; 5; 6; 7; 8; 9; 10; 11; 12; 13; 14; 15; 16; 17; 18; 19].

(** A directory that declares one entry in a buffer of 4 bytes. *)
Definition ifdTruncated : list byte := bytesOf [1; 0; 0; 0].

(** ** Concrete TIFF buffers (little endian, 0th IFD at offset 8) *)

(** An empty 0th IFD with trailer field 0. *)
Definition tiffEmpty : list byte :=
  bytesOf [0x49; 0x49; 0x2A; 0; 8; 0; 0; 0;
           0; 0;  0; 0; 0; 0].

(** An empty 0th IFD with trailer field 14; at offset 14 a directory with a
    2-byte values region, at offset 22 an empty directory. *)
Definition tiffTrailer14 : list byte :=
  bytesOf [0x49; 0x49; 0x2A; 0; 8; 0; 0; 0;
           0; 0;  14; 0; 0; 0;
           0; 0;  2; 0; 0; 0;  0xEE; 0xFF;
           0; 0;  0; 0; 0; 0].


(** A 0th IFD with two entries of tag 0x8769, the first holding offset 38
    (an empty directory), the second offset 44 (a directory with a 2-byte
    values region). *)
Definition tiffTwoExif : list byte :=
  bytesOf [0x49; 0x49; 0x2A; 0; 8; 0; 0; 0;
           2; 0;
           0x69; 0x87; 4; 0; 1; 0; 0; 0; 38; 0; 0; 0;
           0x69; 0x87; 4; 0; 1; 0; 0; 0; 44; 0; 0; 0;
           0; 0; 0; 0;
           0; 0;  0; 0; 0; 0;
           0; 0;  2; 0; 0; 0;  0xEE; 0xFF].

(** A header whose 0th IFD offset is 4. *)
Definition tiffOffset4 : list byte :=
  bytesOf [0x49; 0x49; 0x2A; 0; 4; 0; 0; 0;
           0; 0;  0; 0; 0; 0].

(** A 0th IFD with one BYTE entry of tag 0x010f and trailer field 0, and
    the document the decoder builds from it. *)
Definition tiffOneEntry : list byte :=
  bytesOf [0x49; 0x49; 0x2A; 0; 8; 0; 0; 0;
           1; 0;
           0x0f; 0x01; 1; 0; 1; 0; 0; 0; 0xAA; 0xBB; 0xCC; 0xDD;
           0; 0; 0; 0].

Definition ifdOneEntry : IFD :=
  mkIFD [mkIFDElement 271 1 1 (bytesOf [0xAA; 0xBB; 0xCC; 0xDD])
                              (bytesOf [0xAA; 0xBB; 0xCC; 0xDD])] [].

Definition docOneEntry : APP1 :=
  mkAPP1 LittleEndian [] (Some ifdOneEntry) None None None (Some ifdOneEntry).

Definition exifAt (offset : Z) : IFDElement :=
  mkIFDElement 34665 4 1 (bytesOf [offset; 0; 0; 0]) (bytesOf [offset; 0; 0; 0]).

Definition makeEntry : IFDElement :=
  mkIFDElement 271 2 4 (bytesOf [0x41; 0x42; 0x43; 0]) (bytesOf [0x41; 0x42; 0x43; 0]).

(** The document the decoder builds from [tiffTwoExif]. *)
Definition docTwoExif : APP1 :=
  mkAPP1 LittleEndian [] (Some (mkIFD [exifAt 38; exifAt 44] []))
    (Some (mkIFD [] [])) None None (Some (mkIFD [exifAt 38; exifAt 44] [])).

(** A 0th IFD with one ASCII entry of 6 bytes whose field holds 18: the
    values region starts 18 bytes after the start of the directory (26 bytes
    after the start of the buffer) and holds "Canon" and a NUL. *)
Definition tiffIndirect : list byte :=
  bytesOf [0x49; 0x49; 0x2A; 0; 8; 0; 0; 0;
           1; 0;
           0x0f; 0x01; 2; 0; 6; 0; 0; 0; 18; 0; 0; 0;
           0; 0; 0; 0;
           0x43; 0x61; 0x6e; 0x6f; 0x6e; 0].

Definition canonEntry : IFDElement :=
  mkIFDElement 271 2 6 (bytesOf [0x43; 0x61; 0x6e; 0x6f; 0x6e; 0])
                       (bytesOf [18; 0; 0; 0]).

Definition docIndirect : APP1 :=
  mkAPP1 LittleEndian [] (Some (mkIFD [canonEntry] [])) None None None
    (Some (mkIFD [canonEntry] [])).

(** The errors of a failed [Read]. *)
Definition isReadError (e : error) : Prop :=
  exists n, e = CouldNotRead n \/ exists got, e = CouldNotReadGot n got.

(** The first four bytes of an accepted TIFF header, per byte order. *)
Definition tiffMagic (endian : ByteOrder) : list byte :=
  match endian with
  | BigEndian => [x4d; x4d; x00; x2a]
  | LittleEndian => [x49; x49; x2a; x00]
  end.

(** A file with an APP1 segment of declared length 22: the 2 length bytes,
    the 6 bytes of the Exif identifier and the 14 bytes of [tiffEmpty]. *)
Definition jpegMinimal : list byte :=
  bytesOf [0xff; 0xd8; 0xff; 0xe1; 0; 22; 0x45; 0x78; 0x69; 0x66; 0; 0]
  ++ tiffEmpty.

(** * Basic facts about the embedding *)

Section MachineIntegers.

Lemma int_small (x : Z) : - 2 ^ 63 <= x < 2 ^ 63 -> int x = x.
Proof.
  intros H. unfold int.
  rewrite Z.mod_small; lia.
Qed.

Lemma uint16_small (x : Z) : 0 <= x < 2 ^ 16 -> uint16 x = x.
Proof. intros H. unfold uint16. apply Z.mod_small. exact H. Qed.

Lemma uint32_small (x : Z) : 0 <= x < 2 ^ 32 -> uint32 x = x.
Proof. intros H. unfold uint32. apply Z.mod_small. exact H. Qed.

Lemma uint16_range (x : Z) : 0 <= uint16 x < 2 ^ 16.
Proof. unfold uint16. apply Z.mod_pos_bound. lia. Qed.

Lemma uint32_range (x : Z) : 0 <= uint32 x < 2 ^ 32.
Proof. unfold uint32. apply Z.mod_pos_bound. lia. Qed.

Lemma lor_bound (n a b : Z) :
  0 <= n -> 0 <= a < 2 ^ n -> 0 <= b < 2 ^ n -> 0 <= Z.lor a b < 2 ^ n.
Proof.
  intros Hn Ha Hb. split.
  - apply Z.lor_nonneg. lia.
  - destruct (Z.eq_dec (Z.lor a b) 0) as [E | E].
    + rewrite E. lia.
    + assert (0 < Z.lor a b) by (assert (0 <= Z.lor a b) by (apply Z.lor_nonneg; lia); lia).
      apply Z.log2_lt_pow2; [assumption |].
      rewrite Z.log2_lor by lia.
      destruct (Z.eq_dec a 0) as [-> | Ea]; destruct (Z.eq_dec b 0) as [-> | Eb].
      * simpl in E. congruence.
      * rewrite Z.max_r by (simpl; apply Z.log2_nonneg).
        apply Z.log2_lt_pow2; lia.
      * rewrite Z.max_l by (simpl; apply Z.log2_nonneg).
        apply Z.log2_lt_pow2; lia.
      * apply Z.max_lub_lt; apply Z.log2_lt_pow2; lia.
Qed.

Lemma byteval_range (x : byte) : 0 <= byteval x < 256.
Proof.
  unfold byteval. pose proof (Byte.to_N_bounded x) as H.
  split; [apply N2Z.is_nonneg |].
  apply N.le_succ_l in H || idtac.
  lia.
Qed.

Lemma shiftl_byte_bound (x : byte) (k n : Z) :
  0 <= k -> k + 8 <= n -> 0 <= Z.shiftl (byteval x) k < 2 ^ n.
Proof.
  intros Hk Hn. pose proof (byteval_range x) as Hx.
  rewrite Z.shiftl_mul_pow2 by assumption.
  assert (0 < 2 ^ k) by (apply Z.pow_pos_nonneg; lia).
  split; [nia |].
  apply Z.lt_le_trans with (256 * 2 ^ k); [nia |].
  replace 256 with (2 ^ 8) by reflexivity.
  rewrite <- Z.pow_add_r by lia.
  apply Z.pow_le_mono_r; lia.
Qed.

End MachineIntegers.

Lemma Uint16_range (endian : ByteOrder) (b : list byte) (v : Z) :
  Uint16 endian b = Ok v -> 0 <= v < 2 ^ 16.
Proof.
  unfold Uint16. destruct b as [| b0 [| b1 t]]; try discriminate.
  destruct endian; intros H; injection H as <-;
    apply lor_bound; try lia;
    first [ apply (shiftl_byte_bound _ 8 16); lia
          | pose proof (byteval_range b0); pose proof (byteval_range b1);
            change (2 ^ 16) with 65536; lia ].
Qed.

Lemma Uint32_range (endian : ByteOrder) (b : list byte) (v : Z) :
  Uint32 endian b = Ok v -> 0 <= v < 2 ^ 32.
Proof.
  unfold Uint32. destruct b as [| b0 [| b1 [| b2 [| b3 t]]]]; try discriminate.
  pose proof (byteval_range b0); pose proof (byteval_range b1);
  pose proof (byteval_range b2); pose proof (byteval_range b3).
  destruct endian; intros E; injection E as <-;
    repeat (apply lor_bound; [lia | |]);
    first [ apply (shiftl_byte_bound _ 8 32); lia
          | apply (shiftl_byte_bound _ 16 32); lia
          | apply (shiftl_byte_bound _ 24 32); lia
          | change (2 ^ 32) with 4294967296; lia ].
Qed.

(** ** Slices *)

Lemma slice_Ok (b : list byte) (lo hi : Z) :
  0 <= lo -> lo <= hi -> hi <= len b ->
  slice b lo hi = Ok (firstn (Z.to_nat (hi - lo)) (skipn (Z.to_nat lo) b)).
Proof.
  intros H1 H2 H3. unfold slice.
  replace (0 <=? lo) with true by (symmetry; apply Z.leb_le; lia).
  replace (lo <=? hi) with true by (symmetry; apply Z.leb_le; lia).
  replace (hi <=? len b) with true by (symmetry; apply Z.leb_le; lia).
  reflexivity.
Qed.

Lemma slice_Panic (b : list byte) (lo hi : Z) :
  lo < 0 \/ hi < lo \/ len b < hi -> slice b lo hi = Panic.
Proof.
  intros H. unfold slice.
  destruct (0 <=? lo) eqn:E1; [| reflexivity].
  destruct (lo <=? hi) eqn:E2; [| reflexivity].
  destruct (hi <=? len b) eqn:E3; [| reflexivity].
  apply Z.leb_le in E1, E2, E3. lia.
Qed.

Lemma slice_inv (b : list byte) (lo hi : Z) (s : list byte) :
  slice b lo hi = Ok s ->
  0 <= lo /\ lo <= hi /\ hi <= len b /\
  s = firstn (Z.to_nat (hi - lo)) (skipn (Z.to_nat lo) b) /\ len s = hi - lo.
Proof.
  unfold slice.
  destruct (0 <=? lo) eqn:E1; [| discriminate].
  destruct (lo <=? hi) eqn:E2; [| discriminate].
  destruct (hi <=? len b) eqn:E3; [| discriminate].
  apply Z.leb_le in E1, E2, E3. simpl. intros H. injection H as <-.
  repeat split; try assumption.
  unfold len in *. rewrite length_firstn, length_skipn. lia.
Qed.

Lemma slice_not_Err (b : list byte) (lo hi : Z) (e : error) :
  slice b lo hi <> Err e.
Proof. unfold slice. destruct (_ && _); discriminate. Qed.

Lemma Uint16_not_Err (endian : ByteOrder) (b : list byte) (e : error) :
  Uint16 endian b <> Err e.
Proof.
  unfold Uint16. destruct b as [| b0 [| b1 t]]; try discriminate.
  destruct endian; discriminate.
Qed.

Lemma Uint32_not_Err (endian : ByteOrder) (b : list byte) (e : error) :
  Uint32 endian b <> Err e.
Proof.
  unfold Uint32. destruct b as [| b0 [| b1 [| b2 [| b3 t]]]]; try discriminate.
  destruct endian; discriminate.
Qed.

Lemma Uint16_total (endian : ByteOrder) (b : list byte) :
  2 <= len b -> exists v, Uint16 endian b = Ok v.
Proof.
  unfold len, Uint16. destruct b as [| b0 [| b1 t]]; simpl; try lia.
  intros _. destruct endian; eexists; reflexivity.
Qed.

Lemma Uint32_total (endian : ByteOrder) (b : list byte) :
  4 <= len b -> exists v, Uint32 endian b = Ok v.
Proof.
  unfold len, Uint32. destruct b as [| b0 [| b1 [| b2 [| b3 t]]]]; simpl; try lia.
  intros _. destruct endian; eexists; reflexivity.
Qed.

Lemma bind_Ok_inv {A B : Type} (r : result A) (k : A -> result B) (y : B) :
  bind r k = Ok y -> exists a, r = Ok a /\ k a = Ok y.
Proof. destruct r; simpl; intros H; try discriminate. eauto. Qed.

Lemma bind_Err_inv {A B : Type} (r : result A) (k : A -> result B) (e : error) :
  bind r k = Err e -> r = Err e \/ exists a, r = Ok a /\ k a = Err e.
Proof.
  destruct r; simpl; intros H; try discriminate.
  - right. eauto.
  - left. congruence.
Qed.

Lemma wrap_Ok_inv {A : Type} (f : error -> error) (r : result A) (a : A) :
  wrap f r = Ok a -> r = Ok a.
Proof. destruct r; simpl; intros H; congruence. Qed.

(** ** Directory entries *)

Lemma Length_typeSize (e : IFDElement) :
  0 <= Count e < 2 ^ 32 -> Length e = Count e * typeSize (Type_ e).
Proof.
  intros H. unfold Length, typeSize, mulint.
  rewrite (int_small (Count e)) by lia.
  repeat match goal with
         | |- context [if ?c then _ else _] => destruct c
         end;
    first [apply int_small; lia | lia].
Qed.

Lemma Length_setValue (e : IFDElement) (v : list byte) :
  Length (setValue e v) = Length e.
Proof. reflexivity. Qed.

Lemma newIFDElement_total (b : list byte) (endian : ByteOrder) :
  len b = 12 ->
  exists e, newIFDElement b endian = Ok e /\
            rawValue e = firstn 4 (skipn 8 b) /\ Value e = [] /\
            0 <= Tag e < 2 ^ 16 /\ 0 <= Type_ e < 2 ^ 16 /\
            0 <= Count e < 2 ^ 32.
Proof.
  unfold len. intros H.
  do 12 (destruct b as [| ? b]; [simpl in H; lia |]).
  destruct b; [| simpl in H; lia].
  unfold newIFDElement.
  cbv -[Uint16 Uint32 Z.pow Z.le Z.lt].
  destruct (Uint16_total endian [b0; b1]) as [tag Htag]; [unfold len; simpl; lia |].
  destruct (Uint16_total endian [b2; b3]) as [ty Hty]; [unfold len; simpl; lia |].
  destruct (Uint32_total endian [b4; b5; b6; b7]) as [cnt Hcnt];
    [unfold len; simpl; lia |].
  rewrite Htag, Hty, Hcnt.
  eexists. split; [reflexivity |]. cbn -[Z.pow].
  pose proof (Uint16_range _ _ _ Htag). pose proof (Uint16_range _ _ _ Hty).
  pose proof (Uint32_range _ _ _ Hcnt).
  repeat split; lia.
Qed.

Lemma newIFDElement_inv (b : list byte) (endian : ByteOrder) (e : IFDElement) :
  len b = 12 -> newIFDElement b endian = Ok e ->
  rawValue e = firstn 4 (skipn 8 b) /\ Value e = [] /\ len (rawValue e) = 4 /\
  0 <= Tag e < 2 ^ 16 /\ 0 <= Type_ e < 2 ^ 16 /\ 0 <= Count e < 2 ^ 32.
Proof.
  intros H E. destruct (newIFDElement_total b endian H) as (e' & E' & R & V & T).
  rewrite E in E'. injection E' as <-.
  repeat split; try tauto.
  rewrite R. unfold len in *. rewrite length_firstn, length_skipn. lia.
Qed.

Lemma ElementUint32_total (e : IFDElement) (endian : ByteOrder) :
  len (rawValue e) = 4 ->
  exists offset, ElementUint32 e endian = Ok offset /\ 0 <= offset < 2 ^ 32.
Proof.
  intros H. destruct (Uint32_total endian (rawValue e)) as [v Hv]; [lia |].
  exists v. split; [exact Hv |]. eapply Uint32_range; exact Hv.
Qed.

(** The only error [parseIFDElement] can return is the one of its length
    test. *)
Lemma parseIFDElement_Err_inv (b ifd : list byte) (endian : ByteOrder)
    (err : error) :
  parseIFDElement b ifd endian = Err err ->
  len b <> 12 /\ err = IFDElementExpects12 (len b).
Proof.
  unfold parseIFDElement. destruct (len b =? 12) eqn:E; simpl.
  - apply Z.eqb_eq in E. intros H.
    destruct (newIFDElement_total b endian E) as (e & He & R & _).
    rewrite He in H. simpl in H.
    destruct (Length e >? 4); [| discriminate].
    apply bind_Err_inv in H. destruct H as [H | (o & _ & H)].
    + exfalso. eapply Uint32_not_Err. exact H.
    + apply bind_Err_inv in H. destruct H as [H | (v & _ & H)].
      * exfalso. eapply slice_not_Err. exact H.
      * discriminate.
  - apply Z.eqb_neq in E. intros H. injection H as <-. split; [exact E | reflexivity].
Qed.

(** * C4: the type-size table *)

(** C4, as stated, fails: DOUBLE (12) with count 1 has length 1, not 8;
    SLONG (9) with count 1 has length 8, not 4; and an entry with the
    unknown type code 13 is resolved (one byte per item), not rejected. *)
Lemma Length_not_standard_table :
  Length (mkIFDElement 271 12 1 [] []) <> 1 * 8 /\
  Length (mkIFDElement 271 9 1 [] []) <> 1 * 4 /\
  exists e, parseIFDElement slotType13 [] LittleEndian = Ok e /\
            Type_ e = 13 /\ Length e = 1.
Proof.
  split; [vm_compute; discriminate |].
  split; [vm_compute; discriminate |].
  eexists. split; [vm_compute; reflexivity |]. split; reflexivity.
Qed.

(** C4, amended: for every 12-byte entry slot the fields are read, and the
    value length is [count * 2] for SHORT (3), [count * 4] for LONG (4),
    [count * 8] for RATIONAL (5) and [count] (one byte per item) for every
    type code other than 3, 4, 5, 9 and 10, in or outside the standard
    table; resolving the entry never returns an error. *)
Theorem Length_partial_table (slot ifd : list byte) (endian : ByteOrder) :
  len slot = 12 ->
  exists e, newIFDElement slot endian = Ok e /\
    (Type_ e = 3 -> Length e = Count e * 2) /\
    (Type_ e = 4 -> Length e = Count e * 4) /\
    (Type_ e = 5 -> Length e = Count e * 8) /\
    (Type_ e <> 3 -> Type_ e <> 4 -> Type_ e <> 5 -> Type_ e <> 9 ->
     Type_ e <> 10 -> Length e = Count e) /\
    (forall err, parseIFDElement slot ifd endian <> Err err).
Proof.
  intros H. destruct (newIFDElement_total slot endian H) as (e & He & _ & _ & _ & _ & Hc).
  exists e. split; [exact He |].
  pose proof (Length_typeSize e Hc) as HL. unfold typeSize in HL.
  repeat split.
  - intros T. rewrite T in HL. exact HL.
  - intros T. rewrite T in HL. exact HL.
  - intros T. rewrite T in HL. exact HL.
  - intros T3 T4 T5 T9 T10.
    apply Z.eqb_neq in T3, T4, T5, T9, T10.
    rewrite T3, T4, T5, T9, T10 in HL. lia.
  - intros err E. apply parseIFDElement_Err_inv in E. tauto.
Qed.

Lemma Length_partial_table_witness :
  exists e, newIFDElement slotType13 LittleEndian = Ok e /\
    (Type_ e = 3 -> Length e = Count e * 2) /\
    (Type_ e = 4 -> Length e = Count e * 4) /\
    (Type_ e = 5 -> Length e = Count e * 8) /\
    (Type_ e <> 3 -> Type_ e <> 4 -> Type_ e <> 5 -> Type_ e <> 9 ->
     Type_ e <> 10 -> Length e = Count e) /\
    (forall err, parseIFDElement slotType13 ifd12 LittleEndian <> Err err).
Proof. apply (Length_partial_table slotType13 ifd12 LittleEndian). reflexivity. Defined.

(** * C5: inline values *)

(** C5, as stated, fails: a BYTE entry with count 1 has length 1, and its
    resolved value is the whole 4-byte field, not its first byte. *)
Lemma inline_value_not_first_length_bytes :
  exists e, parseIFDElement slotByte1 ifd12 LittleEndian = Ok e /\
            Length e = 1 /\
            Value e = bytesOf [0xAA; 0xBB; 0xCC; 0xDD] /\
            Value e <> firstn (Z.to_nat (Length e)) (rawValue e) /\
            len (Value e) <> Length e.
Proof.
  eexists. split; [vm_compute; reflexivity |].
  repeat split; vm_compute; discriminate.
Qed.

(** C5, amended: for every entry whose computed value length is at most 4
    bytes, the resolved value is the entry's whole 4-byte raw field (bytes
    8..12 of the slot, always 4 bytes), whatever buffer [ifd] is passed: no
    indirect read through an offset is attempted. *)
Theorem inline_value_is_raw_field (slot ifd : list byte) (endian : ByteOrder)
    (e : IFDElement) :
  len slot = 12 ->
  newIFDElement slot endian = Ok e ->
  Length e <= 4 ->
  parseIFDElement slot ifd endian = Ok (setValue e (firstn 4 (skipn 8 slot))) /\
  Value (setValue e (firstn 4 (skipn 8 slot))) = rawValue e /\
  len (Value (setValue e (firstn 4 (skipn 8 slot)))) = 4.
Proof.
  intros H He HL.
  destruct (newIFDElement_inv slot endian e H He) as (R & _ & L4 & _).
  rewrite <- R. unfold parseIFDElement.
  replace (len slot =? 12) with true by (symmetry; apply Z.eqb_eq; exact H).
  cbn [negb]. rewrite He. cbn [bind].
  replace (Length e >? 4) with false
    by (symmetry; rewrite Z.gtb_ltb; apply Z.ltb_ge; exact HL).
  repeat split. exact L4.
Qed.

Lemma inline_value_is_raw_field_witness :
  parseIFDElement slotByte1 ifd12 LittleEndian
  = Ok (mkIFDElement 271 1 1 (bytesOf [0xAA; 0xBB; 0xCC; 0xDD])
                               (bytesOf [0xAA; 0xBB; 0xCC; 0xDD])).
Proof.
  apply (inline_value_is_raw_field slotByte1 ifd12 LittleEndian
           (mkIFDElement 271 1 1 [] (bytesOf [0xAA; 0xBB; 0xCC; 0xDD]))).
  - reflexivity.
  - reflexivity.
  - vm_compute. discriminate.
Defined.

(** * C2: indirect values *)

Lemma add32_wrap (x y : Z) :
  2 ^ 32 <= x + y < 2 ^ 33 -> add32 x y = x + y - 2 ^ 32.
Proof.
  intros H. unfold add32, uint32. symmetry.
  apply Z.mod_unique with (q := 1); lia.
Qed.




(** * C9: the 16-bit positions of the trailer *)

Lemma trailerStart_mod (ec : Z) : trailerStart ec = (2 + 12 * ec) mod 2 ^ 16.
Proof.
  unfold trailerStart, add16, mul16, uint16.
  rewrite Zplus_mod_idemp_r. f_equal. lia.
Qed.

Lemma trailerEnd_mod (ec : Z) : trailerEnd ec = (2 + 12 * ec + 4) mod 2 ^ 16.
Proof.
  unfold trailerEnd, add16, mul16, uint16.
  rewrite Zplus_mod_idemp_r. rewrite Zplus_mod_idemp_l. f_equal. lia.
Qed.

(** C9, as stated, fails at entry count 5461: [2 + elementCount*12] is
    65534 there, which is the mathematical value; only
    [2 + elementCount*12 + 4] has wrapped (to 2). *)
Lemma trailer_positions_5461 :
  ~ (forall ec, 5461 <= ec < 2 ^ 16 ->
       trailerStart ec <> 2 + 12 * ec /\ trailerEnd ec <> 2 + 12 * ec + 4).
Proof.
  intros H. destruct (H 5461) as [H1 _]; [lia |].
  apply H1. reflexivity.
Qed.

(** C9, amended: both positions are computed modulo 65536 on the uint16
    entry count; [2 + elementCount*12 + 4] differs from the mathematical
    offset exactly for the entry counts of 5461 or more, and
    [2 + elementCount*12] exactly for the entry counts of 5462 or more. *)
Theorem trailer_positions_wrap (ec : Z) :
  0 <= ec < 2 ^ 16 ->
  trailerStart ec = (2 + 12 * ec) mod 2 ^ 16 /\
  trailerEnd ec = (2 + 12 * ec + 4) mod 2 ^ 16 /\
  (trailerEnd ec <> 2 + 12 * ec + 4 <-> 5461 <= ec) /\
  (trailerStart ec <> 2 + 12 * ec <-> 5462 <= ec).
Proof.
  intros H.
  split; [apply trailerStart_mod |]. split; [apply trailerEnd_mod |].
  rewrite trailerStart_mod, trailerEnd_mod.
  pose proof (Z.mod_pos_bound (2 + 12 * ec) (2 ^ 16) ltac:(lia)) as B1.
  pose proof (Z.mod_pos_bound (2 + 12 * ec + 4) (2 ^ 16) ltac:(lia)) as B2.
  split; split.
  - intros N. destruct (Z_lt_le_dec ec 5461) as [L | L]; [| exact L].
    exfalso. apply N. apply Z.mod_small. lia.
  - intros L E. lia.
  - intros N. destruct (Z_lt_le_dec ec 5462) as [L | L]; [| exact L].
    exfalso. apply N. apply Z.mod_small. lia.
  - intros L E. lia.
Qed.

Lemma trailer_positions_wrap_witness :
  trailerStart 5461 = (2 + 12 * 5461) mod 2 ^ 16 /\
  trailerEnd 5461 = (2 + 12 * 5461 + 4) mod 2 ^ 16 /\
  (trailerEnd 5461 <> 2 + 12 * 5461 + 4 <-> 5461 <= 5461) /\
  (trailerStart 5461 <> 2 + 12 * 5461 <-> 5462 <= 5461).
Proof. apply (trailer_positions_wrap 5461). lia. Defined.

(** ** Directories: what [parseIFD] can return *)

Lemma loop_offset (i : Z) :
  0 <= i < 2 ^ 16 ->
  addint 2 (mulint i 12) = 2 + 12 * i /\
  addint (addint 2 (mulint i 12)) 12 = 2 + 12 * i + 12.
Proof.
  intros H. unfold addint, mulint.
  rewrite (int_small (i * 12)) by lia.
  rewrite (int_small (2 + i * 12)) by lia.
  rewrite int_small by lia. lia.
Qed.

Lemma parseElements_not_Err (b : list byte) (endian : ByteOrder) (n : nat) :
  forall i err, 0 <= i -> i + Z.of_nat n <= 2 ^ 16 ->
                parseElements b endian n i <> Err err.
Proof.
  induction n as [| n IH]; intros i err Hi Hn; [discriminate |].
  cbn [parseElements].
  destruct (loop_offset i ltac:(lia)) as [O1 O2]. rewrite O2, O1.
  destruct (slice b (2 + 12 * i) (2 + 12 * i + 12)) as [s | e | ] eqn:Es;
    cbn [bind]; [| exfalso; eapply slice_not_Err; exact Es | discriminate].
  apply slice_inv in Es. destruct Es as (_ & _ & _ & _ & L).
  destruct (parseIFDElement s b endian) as [x | e |] eqn:Ep; [| | discriminate].
  - destruct (parseElements b endian n (i + 1)) as [l | e |] eqn:Er;
      cbn [bind]; try discriminate.
    exfalso. apply (IH (i + 1) e); [lia | lia | exact Er].
  - apply parseIFDElement_Err_inv in Ep. lia.
Qed.

Lemma parseElements_not_Ok (b : list byte) (endian : ByteOrder) (n : nat) :
  forall i l, 0 <= i -> (0 < n)%nat -> i + Z.of_nat n <= 2 ^ 16 ->
              len b < 2 + 12 * (i + Z.of_nat n) ->
              parseElements b endian n i <> Ok l.
Proof.
  induction n as [| n IH]; intros i l Hi Hpos Hn Hb; [lia |].
  cbn [parseElements].
  destruct (loop_offset i ltac:(lia)) as [O1 O2]. rewrite O2, O1.
  destruct (slice b (2 + 12 * i) (2 + 12 * i + 12)) as [s | e | ] eqn:Es;
    cbn [bind]; try discriminate.
  apply slice_inv in Es. destruct Es as (_ & _ & Hhi & _ & L).
  destruct (parseIFDElement s b endian) as [x | e |]; try discriminate.
  destruct n as [| n'].
  - exfalso. lia.
  - destruct (parseElements b endian (S n') (i + 1)) as [l' | e |] eqn:Er;
      cbn [bind]; try discriminate.
    exfalso. apply (IH (i + 1) l'); [lia | lia | lia | lia | exact Er].
Qed.

Lemma parseElements_length (b : list byte) (endian : ByteOrder) (n : nat) :
  forall i l, parseElements b endian n i = Ok l -> length l = n.
Proof.
  induction n as [| n IH]; intros i l H.
  - injection H as <-. reflexivity.
  - cbn [parseElements] in H.
    apply bind_Ok_inv in H. destruct H as (s & _ & H).
    destruct (parseIFDElement s b endian) as [x | e |]; try discriminate.
    apply bind_Ok_inv in H. destruct H as (rest & Hr & H).
    injection H as <-. simpl. f_equal. eapply IH. exact Hr.
Qed.

Lemma readElementCount_short (b : list byte) (endian : ByteOrder) :
  len b < 2 -> readElementCount b endian = Panic.
Proof.
  intros H. unfold readElementCount. rewrite slice_Panic by lia. reflexivity.
Qed.

Lemma readElementCount_inv (b : list byte) (endian : ByteOrder) (ec : Z) :
  readElementCount b endian = Ok ec -> 2 <= len b /\ 0 <= ec < 2 ^ 16.
Proof.
  unfold readElementCount. intros H.
  apply bind_Ok_inv in H. destruct H as (s & Hs & H).
  apply slice_inv in Hs. split; [lia |]. eapply Uint16_range. exact H.
Qed.

Lemma readElementCount_not_Err (b : list byte) (endian : ByteOrder) (err : error) :
  readElementCount b endian <> Err err.
Proof.
  unfold readElementCount. intros H.
  apply bind_Err_inv in H. destruct H as [H | (s & _ & H)].
  - eapply slice_not_Err. exact H.
  - eapply Uint16_not_Err. exact H.
Qed.

Lemma readValuesLength_not_Err (b : list byte) (endian : ByteOrder) (ec : Z)
    (err : error) :
  readValuesLength b endian ec <> Err err.
Proof.
  unfold readValuesLength. intros H.
  apply bind_Err_inv in H. destruct H as [H | (s & _ & H)].
  - eapply slice_not_Err. exact H.
  - apply bind_Err_inv in H. destruct H as [H | (v & _ & H)].
    + eapply Uint32_not_Err. exact H.
    + discriminate.
Qed.

Lemma readValuesLength_inv (b : list byte) (endian : ByteOrder) (ec v : Z) :
  readValuesLength b endian ec = Ok v ->
  0 <= v < 2 ^ 32 /\ trailerStart ec <= trailerEnd ec <= len b.
Proof.
  unfold readValuesLength. intros H.
  apply bind_Ok_inv in H. destruct H as (s & Hs & H).
  apply bind_Ok_inv in H. destruct H as (x & Hx & H).
  apply Uint32_range in Hx. injection H as <-.
  rewrite int_small by lia. apply slice_inv in Hs. lia.
Qed.

(** [parseIFD] never returns an error: its result is a directory or a
    panic. *)
Lemma parseIFD_not_Err (b : list byte) (endian : ByteOrder) (err : error) :
  parseIFD b endian <> Err err.
Proof.
  unfold parseIFD. intros H.
  apply bind_Err_inv in H. destruct H as [H | (ec & Hec & H)];
    [eapply readElementCount_not_Err; exact H |].
  apply readElementCount_inv in Hec. destruct Hec as [_ Hec].
  apply bind_Err_inv in H. destruct H as [H | (v & _ & H)];
    [eapply readValuesLength_not_Err; exact H |].
  apply bind_Err_inv in H. destruct H as [H | (raw & _ & H)];
    [eapply slice_not_Err; exact H |].
  apply bind_Err_inv in H. destruct H as [H | (els & _ & H)]; [| discriminate].
  rewrite int_small in H by lia.
  eapply parseElements_not_Err; [| | exact H]; lia.
Qed.

Lemma parseIFD_Ok_inv (b : list byte) (endian : ByteOrder) (d : IFD) :
  parseIFD b endian = Ok d ->
  exists ec v, readElementCount b endian = Ok ec /\
               readValuesLength b endian ec = Ok v /\
               0 <= ec < 2 ^ 16 /\ 0 <= v < 2 ^ 32 /\
               len (rawValues d) = v /\
               length (Elements d) = Z.to_nat ec.
Proof.
  unfold parseIFD. intros H.
  apply bind_Ok_inv in H. destruct H as (ec & Hec & H).
  apply bind_Ok_inv in H. destruct H as (v & Hv & H).
  apply bind_Ok_inv in H. destruct H as (raw & Hraw & H).
  apply bind_Ok_inv in H. destruct H as (els & Hels & H).
  injection H as <-. cbn [rawValues Elements].
  pose proof (readElementCount_inv _ _ _ Hec) as [_ Rec].
  pose proof (readValuesLength_inv _ _ _ _ Hv) as [Rv _].
  exists ec, v. repeat split; try lia; try assumption.
  - apply slice_inv in Hraw. destruct Hraw as (_ & _ & _ & _ & L).
    rewrite L. unfold addint.
    pose proof (trailerEnd_mod ec) as E.
    pose proof (Z.mod_pos_bound (2 + 12 * ec + 4) (2 ^ 16) ltac:(lia)) as B.
    rewrite (int_small (trailerEnd ec)) by lia.
    rewrite int_small by lia. lia.
  - apply parseElements_length in Hels. rewrite Hels.
    rewrite int_small by lia. reflexivity.
Qed.

(** * C6: a directory that does not fit in the buffer *)

(** C6, as stated, fails: on an empty buffer, and on a 4-byte buffer
    declaring one entry, [parseIFD] panics; it returns no error. *)
Lemma parseIFD_truncated_no_error :
  parseIFD [] LittleEndian = Panic /\
  readElementCount ifdTruncated LittleEndian = Ok 1 /\
  len ifdTruncated < 2 + 12 * 1 + 4 /\
  parseIFD ifdTruncated LittleEndian = Panic /\
  (forall err, parseIFD ifdTruncated LittleEndian <> Err err).
Proof.
  repeat split; try (vm_compute; reflexivity).
  intros err. vm_compute. discriminate.
Qed.

(** C6, amended: decoding a directory makes no check before it slices.  For
    every buffer of at most 65535 bytes (the longest the APP1 reader can
    deliver): with fewer than 2 bytes, reading the entry count panics; and
    when [2 + 12*entryCount + 4] exceeds the buffer length, decoding
    panics.  In no case is an error returned. *)
Theorem parseIFD_unchecked (b : list byte) (endian : ByteOrder) :
  len b <= 65535 ->
  (len b < 2 -> parseIFD b endian = Panic) /\
  (forall ec, readElementCount b endian = Ok ec ->
              len b < 2 + 12 * ec + 4 -> parseIFD b endian = Panic) /\
  (forall err, parseIFD b endian <> Err err).
Proof.
  intros Hlen. split; [| split].
  - intros H. unfold parseIFD.
    rewrite readElementCount_short by exact H. reflexivity.
  - intros ec Hec Hfit.
    pose proof (readElementCount_inv _ _ _ Hec) as [_ Rec].
    unfold parseIFD. rewrite Hec. cbn [bind].
    destruct (Z_lt_le_dec ec 5462) as [Hs | Hb].
    + (* the trailer slice is out of range *)
      assert (P : readValuesLength b endian ec = Panic).
      { unfold readValuesLength.
        destruct (Z_lt_le_dec ec 5461) as [Hs' | Hb'].
        - rewrite trailerStart_mod, trailerEnd_mod.
          rewrite !Z.mod_small by lia.
          rewrite slice_Panic by lia. reflexivity.
        - replace ec with 5461 by lia.
          rewrite slice_Panic; [reflexivity |].
          right; left. vm_compute. reflexivity. }
      rewrite P. reflexivity.
    + (* the last entry slot is out of range *)
      destruct (readValuesLength b endian ec) as [v | e |] eqn:Ev;
        cbn [bind]; [| exfalso; eapply readValuesLength_not_Err; exact Ev
                     | reflexivity].
      destruct (slice b (int (trailerEnd ec)) (addint (int (trailerEnd ec)) v))
        as [raw | e |] eqn:Er;
        cbn [bind]; [| exfalso; eapply slice_not_Err; exact Er | reflexivity].
      rewrite int_small by lia.
      destruct (parseElements b endian (Z.to_nat ec) 0) as [els | e |] eqn:Ee;
        cbn [bind]; [| | reflexivity].
      * exfalso. apply (parseElements_not_Ok b endian (Z.to_nat ec) 0 els);
          [lia | lia | lia | lia | exact Ee].
      * exfalso. apply (parseElements_not_Err b endian (Z.to_nat ec) 0 e);
          [lia | lia | exact Ee].
  - intros err. apply parseIFD_not_Err.
Qed.

Lemma parseIFD_unchecked_witness :
  (len ifdTruncated < 2 -> parseIFD ifdTruncated LittleEndian = Panic) /\
  (forall ec, readElementCount ifdTruncated LittleEndian = Ok ec ->
              len ifdTruncated < 2 + 12 * ec + 4 ->
              parseIFD ifdTruncated LittleEndian = Panic) /\
  (forall err, parseIFD ifdTruncated LittleEndian <> Err err).
Proof.
  apply (parseIFD_unchecked ifdTruncated LittleEndian).
  vm_compute. discriminate.
Defined.

(** * C10: the first matching entry is followed *)

Lemma findLinked_skip (pre rest : list IFDElement) (tag : Z) (b : list byte)
    (endian : ByteOrder) :
  (forall x, In x pre -> Tag x <> tag) ->
  findLinked (pre ++ rest) tag b endian = findLinked rest tag b endian.
Proof.
  induction pre as [| x pre IH]; intros H; [reflexivity |].
  cbn [app findLinked].
  replace (Tag x =? tag) with false
    by (symmetry; apply Z.eqb_neq; apply H; left; reflexivity).
  apply IH. intros y Hy. apply H. right. exact Hy.
Qed.

(** C10: in a directory whose entries are [pre ++ e :: post], where [e] is
    the first entry with the tag (no entry of [pre] has it), the lookup
    decodes the directory at the offset held by [e]; the result does not
    depend on [post], whose entries may carry the same tag. *)
Theorem FindLinkedIFD_first_match (pre post : list IFDElement)
    (e : IFDElement) (raw : list byte) (tag : Z) (b : list byte)
    (endian : ByteOrder) :
  (forall x, In x pre -> Tag x <> tag) ->
  Tag e = tag ->
  FindLinkedIFD (mkIFD (pre ++ e :: post) raw) tag b endian
  = (offset <- ElementUint32 e endian ;;
     s <- sliceFrom b offset ;;
     d <- parseIFD s endian ;;
     Ok (Some d)) /\
  (forall post' raw',
     FindLinkedIFD (mkIFD (pre ++ e :: post') raw') tag b endian
     = FindLinkedIFD (mkIFD (pre ++ e :: post) raw) tag b endian).
Proof.
  intros Hpre He.
  assert (F : forall p r,
             FindLinkedIFD (mkIFD (pre ++ e :: p) r) tag b endian
             = (offset <- ElementUint32 e endian ;;
                s <- sliceFrom b offset ;;
                d <- parseIFD s endian ;;
                Ok (Some d))).
  { intros p r. unfold FindLinkedIFD. cbn [Elements].
    rewrite findLinked_skip by exact Hpre.
    cbn [findLinked].
    replace (Tag e =? tag) with true by (symmetry; apply Z.eqb_eq; exact He).
    reflexivity. }
  split; [apply F |].
  intros post' raw'. rewrite !F. reflexivity.
Qed.

Lemma FindLinkedIFD_first_match_witness :
  FindLinkedIFD (mkIFD ([makeEntry] ++ exifAt 38 :: [exifAt 44]) [])
                34665 tiffTwoExif LittleEndian
  = (offset <- ElementUint32 (exifAt 38) LittleEndian ;;
     s <- sliceFrom tiffTwoExif offset ;;
     d <- parseIFD s LittleEndian ;;
     Ok (Some d)) /\
  (forall post' raw',
     FindLinkedIFD (mkIFD ([makeEntry] ++ exifAt 38 :: post') raw')
                   34665 tiffTwoExif LittleEndian
     = FindLinkedIFD (mkIFD ([makeEntry] ++ exifAt 38 :: [exifAt 44]) [])
                     34665 tiffTwoExif LittleEndian).
Proof.
  apply (FindLinkedIFD_first_match [makeEntry] [exifAt 44] (exifAt 38) []
           34665 tiffTwoExif LittleEndian).
  - intros x [<- | []]. vm_compute. discriminate.
  - reflexivity.
Defined.

(** On the buffer with two Exif pointer entries the decoded Exif IFD is the
    directory at offset 38, the first entry's. *)
Example tiffTwoExif_follows_first :
  exists a, parseTIFF tiffTwoExif = Ok a /\
            ExifIFD a = Some (mkIFD [] []) /\
            (s <- sliceFrom tiffTwoExif 44 ;; parseIFD s LittleEndian)
            = Ok (mkIFD [] (bytesOf [0xEE; 0xFF])).
Proof. eexists. repeat split; vm_compute; reflexivity. Qed.

(** ** The structure of a successful [parseTIFF] *)

Lemma parseLinkedIFDs_Ok_inv (b : list byte) (endian : ByteOrder) (off : Z)
    (pre : list byte) (d0 : IFD) (a : APP1) :
  parseLinkedIFDs b endian off pre d0 = Ok a ->
  exists exif gps interop s4 d1,
    FindLinkedIFD d0 34665 b endian = Ok exif /\
    FindLinkedIFD d0 34853 b endian = Ok gps /\
    FindLinkedIFD d0 40965 b endian = Ok interop /\
    sliceFrom b (addint (int off) (len (rawValues d0))) = Ok s4 /\
    parseIFD s4 endian = Ok d1 /\
    a = mkAPP1 endian pre (Some d0) exif gps interop (Some d1).
Proof.
  unfold parseLinkedIFDs. intros H.
  apply bind_Ok_inv in H. destruct H as (exif & H1 & H). apply wrap_Ok_inv in H1.
  apply bind_Ok_inv in H. destruct H as (gps & H2 & H). apply wrap_Ok_inv in H2.
  apply bind_Ok_inv in H. destruct H as (io & H3 & H). apply wrap_Ok_inv in H3.
  apply bind_Ok_inv in H. destruct H as (s4 & H4 & H).
  apply bind_Ok_inv in H. destruct H as (d1 & H5 & H). apply wrap_Ok_inv in H5.
  injection H as <-.
  exists exif, gps, io, s4, d1. repeat split; assumption.
Qed.

Lemma parseTIFF_Ok_inv (b : list byte) (a : APP1) :
  parseTIFF b = Ok a ->
  exists endian off pre s3 d0,
    readTIFFHeader b = Ok (endian, off) /\
    slice b 8 off = Ok pre /\
    sliceFrom b off = Ok s3 /\
    parseIFD s3 endian = Ok d0 /\
    parseLinkedIFDs b endian off pre d0 = Ok a.
Proof.
  unfold parseTIFF. intros H.
  apply bind_Ok_inv in H. destruct H as ([endian off] & Hh & H).
  apply bind_Ok_inv in H. destruct H as (pre & Hpre & H).
  apply bind_Ok_inv in H. destruct H as (s3 & Hs3 & H).
  apply bind_Ok_inv in H. destruct H as (d0 & Hd0 & H). apply wrap_Ok_inv in Hd0.
  exists endian, off, pre, s3, d0. repeat split; assumption.
Qed.

Lemma readTIFFHeader_inv (b : list byte) (endian : ByteOrder) (off : Z) :
  readTIFFHeader b = Ok (endian, off) -> 8 <= len b /\ 0 <= off < 2 ^ 32.
Proof.
  unfold readTIFFHeader. intros H.
  apply bind_Ok_inv in H. destruct H as (m & _ & H).
  apply bind_Ok_inv in H. destruct H as (en & _ & H).
  apply bind_Ok_inv in H. destruct H as (s1 & _ & H).
  apply bind_Ok_inv in H. destruct H as (ver & _ & H).
  destruct (negb (ver =? 42)); [discriminate |].
  apply bind_Ok_inv in H. destruct H as (s2 & Hs2 & H).
  apply bind_Ok_inv in H. destruct H as (o & Ho & H).
  injection H as <- <-.
  apply slice_inv in Hs2. apply Uint32_range in Ho. lia.
Qed.

Lemma findLinked_absent (els : list IFDElement) (tag : Z) (b : list byte)
    (endian : ByteOrder) :
  (forall x, In x els -> Tag x <> tag) -> findLinked els tag b endian = Ok None.
Proof.
  intros H. rewrite <- (app_nil_r els).
  rewrite findLinked_skip by exact H. reflexivity.
Qed.

Lemma findLinked_not_Err (els : list IFDElement) (tag : Z) (b : list byte)
    (endian : ByteOrder) (err : error) :
  findLinked els tag b endian <> Err err.
Proof.
  induction els as [| e els IH]; [discriminate |].
  cbn [findLinked]. destruct (Tag e =? tag); [| exact IH].
  intros H.
  apply bind_Err_inv in H. destruct H as [H | (o & _ & H)];
    [eapply Uint32_not_Err; exact H |].
  apply bind_Err_inv in H. destruct H as [H | (s & _ & H)];
    [eapply slice_not_Err; exact H |].
  apply bind_Err_inv in H. destruct H as [H | (d & _ & H)];
    [eapply parseIFD_not_Err; exact H | discriminate].
Qed.

(** * C8: missing pointer tags *)

(** C8: once the header is accepted and the primary directory is decoded,
    a pointer tag that no entry of the primary directory carries costs
    nothing: the lookup returns no directory and no error ([nil, nil]),
    decoding goes on with the remaining steps, and the corresponding field
    (Exif for 0x8769, GPS for 0x8825, Interoperability for 0xA005) of the
    document is unset.  With none of the three tags, [parseTIFF] is the
    decoding of the 1st IFD alone, with the three fields unset. *)
Theorem missing_pointer_tag_unset (b : list byte) (endian : ByteOrder)
    (off : Z) (pre s3 : list byte) (d0 : IFD) :
  readTIFFHeader b = Ok (endian, off) ->
  slice b 8 off = Ok pre ->
  sliceFrom b off = Ok s3 ->
  parseIFD s3 endian = Ok d0 ->
  (forall tag, absentTag d0 tag -> FindLinkedIFD d0 tag b endian = Ok None) /\
  (absentTag d0 34665 ->
   parseTIFF b
   = (gps <- wrap CouldNotParseGPSIFD (FindLinkedIFD d0 34853 b endian) ;;
      interop <- wrap CouldNotParseInteroperabilityIFD
                   (FindLinkedIFD d0 40965 b endian) ;;
      s4 <- sliceFrom b (addint (int off) (len (rawValues d0))) ;;
      ifd1 <- wrap CouldNotParse1stIFD (parseIFD s4 endian) ;;
      Ok (mkAPP1 endian pre (Some d0) None gps interop (Some ifd1)))) /\
  (absentTag d0 34853 ->
   parseTIFF b
   = (exif <- wrap CouldNotParseExifIFD (FindLinkedIFD d0 34665 b endian) ;;
      interop <- wrap CouldNotParseInteroperabilityIFD
                   (FindLinkedIFD d0 40965 b endian) ;;
      s4 <- sliceFrom b (addint (int off) (len (rawValues d0))) ;;
      ifd1 <- wrap CouldNotParse1stIFD (parseIFD s4 endian) ;;
      Ok (mkAPP1 endian pre (Some d0) exif None interop (Some ifd1)))) /\
  (absentTag d0 40965 ->
   parseTIFF b
   = (exif <- wrap CouldNotParseExifIFD (FindLinkedIFD d0 34665 b endian) ;;
      gps <- wrap CouldNotParseGPSIFD (FindLinkedIFD d0 34853 b endian) ;;
      s4 <- sliceFrom b (addint (int off) (len (rawValues d0))) ;;
      ifd1 <- wrap CouldNotParse1stIFD (parseIFD s4 endian) ;;
      Ok (mkAPP1 endian pre (Some d0) exif gps None (Some ifd1)))) /\
  (absentTag d0 34665 -> absentTag d0 34853 -> absentTag d0 40965 ->
   parseTIFF b
   = (s4 <- sliceFrom b (addint (int off) (len (rawValues d0))) ;;
      ifd1 <- wrap CouldNotParse1stIFD (parseIFD s4 endian) ;;
      Ok (mkAPP1 endian pre (Some d0) None None None (Some ifd1)))).
Proof.
  intros Hh Hpre Hs3 Hd0.
  assert (F : forall tag, absentTag d0 tag ->
                          FindLinkedIFD d0 tag b endian = Ok None)
    by (intros tag Habs; apply findLinked_absent; exact Habs).
  assert (E : parseTIFF b = parseLinkedIFDs b endian off pre d0).
  { unfold parseTIFF. rewrite Hh. cbn [bind].
    rewrite Hpre. cbn [bind]. rewrite Hs3. cbn [bind].
    rewrite Hd0. reflexivity. }
  split; [exact F |].
  rewrite E. unfold parseLinkedIFDs.
  split; [| split; [| split]].
  - intros A1. rewrite (F _ A1). reflexivity.
  - intros A2. rewrite (F _ A2).
    destruct (FindLinkedIFD d0 34665 b endian); reflexivity.
  - intros A3. rewrite (F _ A3).
    destruct (FindLinkedIFD d0 34665 b endian); cbn [wrap bind];
      [| reflexivity | reflexivity].
    destruct (FindLinkedIFD d0 34853 b endian); reflexivity.
  - intros A1 A2 A3. rewrite (F _ A1), (F _ A2), (F _ A3). reflexivity.
Qed.

Lemma missing_pointer_tag_unset_witness :
  FindLinkedIFD ifdOneEntry 34665 tiffOneEntry LittleEndian = Ok None /\
  parseTIFF tiffOneEntry
  = (s4 <- sliceFrom tiffOneEntry (addint (int 8) (len (rawValues ifdOneEntry))) ;;
     ifd1 <- wrap CouldNotParse1stIFD (parseIFD s4 LittleEndian) ;;
     Ok (mkAPP1 LittleEndian [] (Some ifdOneEntry) None None None (Some ifd1))).
Proof.
  assert (A : forall tag, tag <> 271 -> absentTag ifdOneEntry tag).
  { intros tag Hne x [<- | []]. cbn [Tag]. congruence. }
  destruct (missing_pointer_tag_unset tiffOneEntry LittleEndian 8 []
              (skipn 8 tiffOneEntry) ifdOneEntry)
    as (F & _ & _ & _ & H).
  - vm_compute. reflexivity.
  - vm_compute. reflexivity.
  - vm_compute. reflexivity.
  - vm_compute. reflexivity.
  - split.
    + apply F. apply A. discriminate.
    + apply H; apply A; discriminate.
Defined.

(** * C3: the 1st IFD *)




(** * C1: slicing without bound checks *)

Lemma wrap_Err_inv {A : Type} (f : error -> error) (r : result A) (err : error) :
  wrap f r = Err err -> exists e, r = Err e.
Proof. destruct r; simpl; intros H; try discriminate. eauto. Qed.

Lemma parseLinkedIFDs_not_Err (b : list byte) (endian : ByteOrder) (off : Z)
    (pre : list byte) (d0 : IFD) (err : error) :
  parseLinkedIFDs b endian off pre d0 <> Err err.
Proof.
  unfold parseLinkedIFDs, FindLinkedIFD. intros H.
  apply bind_Err_inv in H. destruct H as [H | (x1 & _ & H)];
    [apply wrap_Err_inv in H; destruct H as [e H];
     eapply findLinked_not_Err; exact H |].
  apply bind_Err_inv in H. destruct H as [H | (x2 & _ & H)];
    [apply wrap_Err_inv in H; destruct H as [e H];
     eapply findLinked_not_Err; exact H |].
  apply bind_Err_inv in H. destruct H as [H | (x3 & _ & H)];
    [apply wrap_Err_inv in H; destruct H as [e H];
     eapply findLinked_not_Err; exact H |].
  apply bind_Err_inv in H. destruct H as [H | (s4 & _ & H)];
    [eapply slice_not_Err; exact H |].
  apply bind_Err_inv in H. destruct H as [H | (d1 & _ & H)]; [| discriminate].
  apply wrap_Err_inv in H. destruct H as [e H].
  eapply parseIFD_not_Err. exact H.
Qed.

Lemma readTIFFHeader_Err_inv (b : list byte) (err : error) :
  readTIFFHeader b = Err err ->
  exists m, err = InvalidEndian m \/ err = InvalidTIFFVersion m.
Proof.
  unfold readTIFFHeader. intros H.
  apply bind_Err_inv in H. destruct H as [H | (m & _ & H)];
    [exfalso; eapply slice_not_Err; exact H |].
  apply bind_Err_inv in H. destruct H as [H | (endian & _ & H)].
  { exists m. left.
    destruct (bytesEqual m [x4d; x4d]); [discriminate |].
    destruct (bytesEqual m [x49; x49]); [discriminate |].
    congruence. }
  apply bind_Err_inv in H. destruct H as [H | (s1 & _ & H)];
    [exfalso; eapply slice_not_Err; exact H |].
  apply bind_Err_inv in H. destruct H as [H | (ver & _ & H)];
    [exfalso; eapply Uint16_not_Err; exact H |].
  destruct (negb (ver =? 42)).
  { exists s1. right. congruence. }
  apply bind_Err_inv in H. destruct H as [H | (s2 & _ & H)];
    [exfalso; eapply slice_not_Err; exact H |].
  apply bind_Err_inv in H. destruct H as [H | (o & _ & H)];
    [exfalso; eapply Uint32_not_Err; exact H | discriminate].
Qed.

Lemma parseTIFF_after_header (b : list byte) (endian : ByteOrder) (off : Z) :
  readTIFFHeader b = Ok (endian, off) ->
  parseTIFF b
  = (pre <- slice b 8 off ;;
     s3 <- sliceFrom b off ;;
     ifd0 <- wrap CouldNotParse0thIFD (parseIFD s3 endian) ;;
     parseLinkedIFDs b endian off pre ifd0).
Proof. intros H. unfold parseTIFF. rewrite H. reflexivity. Qed.

Lemma parseTIFF_not_Err_after_header (b : list byte) (endian : ByteOrder)
    (off : Z) (err : error) :
  readTIFFHeader b = Ok (endian, off) -> parseTIFF b <> Err err.
Proof.
  intros Hh. rewrite (parseTIFF_after_header b endian off Hh). intros H.
  apply bind_Err_inv in H. destruct H as [H | (pre & _ & H)];
    [eapply slice_not_Err; exact H |].
  apply bind_Err_inv in H. destruct H as [H | (s3 & _ & H)];
    [eapply slice_not_Err; exact H |].
  apply bind_Err_inv in H. destruct H as [H | (d0 & _ & H)].
  - apply wrap_Err_inv in H. destruct H as [e H].
    eapply parseIFD_not_Err. exact H.
  - eapply parseLinkedIFDs_not_Err. exact H.
Qed.

(** C1, as stated, fails: a header that is accepted and gives 4 as the
    offset of the 0th IFD makes the slice of the pre-IFD region panic, for
    the TIFF decoder and for the whole program on a file holding it; so
    does an entry whose indirect value lies outside the buffer. *)
Lemma decoder_panics_on_malformed_input :
  readTIFFHeader tiffOffset4 = Ok (LittleEndian, 4) /\
  parseTIFF tiffOffset4 = Panic /\
  parse (bytesOf [0xff; 0xd8; 0xff; 0xe1; 0; 0x18; 0x45; 0x78; 0x69; 0x66; 0; 0]
         ++ tiffOffset4) = Panic /\
  parseIFDElement slotLong2 ifd12 LittleEndian = Panic /\
  parseTIFF [] = Panic.
Proof. repeat split; vm_compute; reflexivity. Qed.

(** C1, amended: the decoder makes no bound check before it slices.  A
    buffer of fewer than 2 bytes makes it panic; once the header is
    accepted, an offset of the 0th IFD below 8 or beyond the buffer makes
    the slice of the pre-IFD region panic, and no error is returned any
    more (the result is a document or a panic); the only errors the TIFF
    decoder returns are the two of the header (byte-order marker, version
    constant). *)
Theorem parseTIFF_unchecked (b : list byte) :
  (len b < 2 -> parseTIFF b = Panic) /\
  (forall endian off,
     readTIFFHeader b = Ok (endian, off) ->
     (off < 8 \/ len b < off -> parseTIFF b = Panic) /\
     (forall err, parseTIFF b <> Err err) /\
     (forall d err, parseIFD d endian <> Err err)) /\
  (forall err, parseTIFF b = Err err ->
     exists m, err = InvalidEndian m \/ err = InvalidTIFFVersion m).
Proof.
  split; [| split].
  - intros H. unfold parseTIFF, readTIFFHeader.
    rewrite slice_Panic by lia. reflexivity.
  - intros endian off Hh. split; [| split].
    + intros Hoff. rewrite (parseTIFF_after_header b endian off Hh).
      rewrite slice_Panic by lia. reflexivity.
    + intros err. eapply parseTIFF_not_Err_after_header. exact Hh.
    + intros d err. apply parseIFD_not_Err.
  - intros err H.
    destruct (readTIFFHeader b) as [[endian off] | e |] eqn:Hh.
    + exfalso. eapply parseTIFF_not_Err_after_header; eassumption.
    + unfold parseTIFF in H. rewrite Hh in H. cbn [bind] in H.
      injection H as <-. eapply readTIFFHeader_Err_inv. exact Hh.
    + unfold parseTIFF in H. rewrite Hh in H. discriminate.
Qed.

Lemma parseTIFF_unchecked_witness :
  parseTIFF tiffOffset4 = Panic /\
  (forall err, parseTIFF tiffOffset4 <> Err err) /\
  (forall d err, parseIFD d LittleEndian <> Err err).
Proof.
  destruct (proj1 (proj2 (parseTIFF_unchecked tiffOffset4)) LittleEndian 4)
    as (P & E & D).
  - reflexivity.
  - split; [| split; [exact E | exact D]].
    apply P. left. lia.
Defined.

(** * C7: the length of the TIFF payload *)

Lemma readBytes_inv (r : Reader) (n : Z) (b : list byte) (r' : Reader) :
  readBytes r n = Ok (b, r') ->
  b = firstn (Z.to_nat n) r /\ r' = skipn (Z.to_nat n) r /\ len b = n.
Proof.
  unfold readBytes.
  destruct (n <? 0) eqn:E0; [discriminate |].
  destruct (n =? 0) eqn:E1.
  - apply Z.eqb_eq in E1. subst n. intros H. injection H as <- <-.
    repeat split.
  - destruct (len r =? 0); [discriminate |].
    destruct (len r <? n) eqn:E2; [discriminate |].
    intros H. injection H as <- <-.
    apply Z.ltb_ge in E0, E2.
    repeat split. unfold len in *. rewrite length_firstn. lia.
Qed.

(** The payload passed to [parseTIFF] has [app1Length - 10] bytes, computed
    on 16 bits, where [app1Length] is the big-endian value of the two bytes
    after the marker. *)
Lemma readTIFFPayload_length (r : Reader) (b : list byte) (r' : Reader) :
  readTIFFPayload r = Ok (b, r') ->
  exists app1Length,
    BigEndianUint16 (firstn 2 (skipn 2 r)) = Ok app1Length /\
    len b = uint16 (app1Length - 10).
Proof.
  unfold readTIFFPayload. intros H.
  apply bind_Ok_inv in H. destruct H as ([b0 r0] & H0 & H).
  destruct (negb (bytesEqual b0 app1marker)); [discriminate |].
  apply bind_Ok_inv in H. destruct H as ([b1 r1] & H1 & H).
  apply bind_Ok_inv in H. destruct H as (app1Length & HL & H).
  apply bind_Ok_inv in H. destruct H as ([b2 r2] & H2 & H).
  destruct (negb (bytesEqual b2 exifMarker)); [discriminate |].
  apply readBytes_inv in H0, H1, H.
  destruct H0 as (_ & -> & _). destruct H1 as (-> & _ & _).
  destruct H as (_ & _ & L).
  exists app1Length. split; [exact HL |].
  rewrite L. unfold sub16. apply int_small.
  pose proof (uint16_range (app1Length - 10)). lia.
Qed.

(** C7 on the code: for the declared length 22 the payload should have
    22 - 8 = 14 bytes, all of [tiffEmpty], which [parseTIFF] decodes; the
    reader delivers 22 - 10 = 12 bytes, and the decoder panics on them. *)
Theorem payload_is_declared_length_minus_10 :
  BigEndianUint16 (firstn 2 (skipn 4 jpegMinimal)) = Ok 22 /\
  readTIFFPayload (skipn 2 jpegMinimal)
  = Ok (firstn 12 tiffEmpty, skipn 12 tiffEmpty) /\
  len (firstn 12 tiffEmpty) = 22 - 10 /\
  len (firstn 12 tiffEmpty) <> 22 - 2 - 6 /\
  len tiffEmpty = 22 - 2 - 6 /\
  parseTIFF tiffEmpty
  = Ok (mkAPP1 LittleEndian [] (Some (mkIFD [] [])) None None None
          (Some (mkIFD [] []))) /\
  parse jpegMinimal = Panic.
Proof.
  repeat split; try (vm_compute; reflexivity).
  vm_compute. discriminate.
Qed.

(** * Further properties of the decoder *)

(** ** Reading: [readBytes], [parseAPP1], [parseJPEGHeader], [parse] *)

Lemma bytesEqual_eq (a b : list byte) : bytesEqual a b = true <-> a = b.
Proof.
  revert b. induction a as [| x a IH]; intros [| y b]; simpl; split;
    intros H; try reflexivity; try discriminate.
  - apply andb_true_iff in H. destruct H as [H1 H2].
    apply Byte.byte_dec_bl in H1. apply IH in H2. congruence.
  - injection H as -> ->. apply andb_true_iff. split.
    + apply Byte.byte_dec_lb. reflexivity.
    + apply IH. reflexivity.
Qed.

Lemma readBytes_split (r : Reader) (n : Z) (b : list byte) (r' : Reader) :
  readBytes r n = Ok (b, r') -> r = b ++ r' /\ len b = n.
Proof.
  intros H. apply readBytes_inv in H. destruct H as (-> & -> & L).
  split; [symmetry; apply firstn_skipn | exact L].
Qed.

(** X1.  [readBytes] returns bytes exactly when the reader still holds at
    least [length] of them ([0 <= length]); it then returns the next
    [length] bytes and leaves the reader just after them, so a short read
    is never passed on as data. *)
Theorem readBytes_all_or_nothing (r : Reader) (n : Z) (b : list byte)
    (r' : Reader) :
  readBytes r n = Ok (b, r') <->
  0 <= n <= len r /\ r = b ++ r' /\ len b = n.
Proof.
  split.
  - intros H. pose proof (readBytes_split _ _ _ _ H) as [E L].
    split; [| split; assumption].
    unfold readBytes in H.
    destruct (n <? 0) eqn:E0; [discriminate |]. apply Z.ltb_ge in E0.
    split; [exact E0 |].
    rewrite E. unfold len in *. rewrite length_app. lia.
  - intros (Hn & -> & L). unfold readBytes.
    replace (n <? 0) with false by (symmetry; apply Z.ltb_ge; lia).
    destruct (n =? 0) eqn:E1.
    + apply Z.eqb_eq in E1. rewrite E1 in L.
      destruct b; [reflexivity | unfold len in L; simpl in L; lia].
    + apply Z.eqb_neq in E1.
      replace (len (b ++ r') =? 0) with false by (symmetry; apply Z.eqb_neq; lia).
      replace (len (b ++ r') <? n) with false by (symmetry; apply Z.ltb_ge; lia).
      assert (Hl : Z.to_nat n = length b) by (unfold len in L; lia).
      rewrite Hl, firstn_app, skipn_app, Nat.sub_diag, firstn_all, skipn_all.
      simpl. rewrite app_nil_r. reflexivity.
Qed.

Lemma readBytes_all_or_nothing_witness :
  readBytes (bytesOf [1; 2; 3]) 2 = Ok (bytesOf [1; 2], bytesOf [3]).
Proof.
  apply (proj2 (readBytes_all_or_nothing (bytesOf [1; 2; 3]) 2
                  (bytesOf [1; 2]) (bytesOf [3]))).
  repeat split; vm_compute; congruence.
Defined.

Lemma readBytes_Err_inv (r : Reader) (n : Z) (err : error) :
  readBytes r n = Err err ->
  err = CouldNotRead n \/ err = CouldNotReadGot n (len r).
Proof.
  unfold readBytes.
  destruct (n <? 0); [discriminate |].
  destruct (n =? 0); [discriminate |].
  destruct (len r =? 0); [intros H; left; congruence |].
  destruct (len r <? n); [intros H; right; congruence | discriminate].
Qed.

Lemma readTIFFPayload_Ok_inv (r : Reader) (b : list byte) (r' : Reader) :
  readTIFFPayload r = Ok (b, r') ->
  exists lenBytes app1Length,
    r = app1marker ++ lenBytes ++ exifMarker ++ b ++ r' /\
    len lenBytes = 2 /\
    BigEndianUint16 lenBytes = Ok app1Length /\
    len b = uint16 (app1Length - 10).
Proof.
  unfold readTIFFPayload. intros H.
  apply bind_Ok_inv in H. destruct H as ([b0 r0] & H0 & H).
  destruct (bytesEqual b0 app1marker) eqn:E0; [| discriminate]. cbn [negb] in H.
  apply bind_Ok_inv in H. destruct H as ([b1 r1] & H1 & H).
  apply bind_Ok_inv in H. destruct H as (app1Length & HL & H).
  apply bind_Ok_inv in H. destruct H as ([b2 r2] & H2 & H).
  destruct (bytesEqual b2 exifMarker) eqn:E2; [| discriminate]. cbn [negb] in H.
  apply bytesEqual_eq in E0, E2. subst b0 b2.
  apply readBytes_split in H0, H1, H2, H.
  destruct H0 as [-> _]. destruct H1 as [-> L1]. destruct H2 as [-> _].
  destruct H as [-> L].
  exists b1, app1Length. repeat split; try assumption.
  rewrite L. unfold sub16. apply int_small.
  pose proof (uint16_range (app1Length - 10)). lia.
Qed.

(** X2.  A file that [parse] accepts has this layout: the SOI marker, the
    APP1 marker, two length bytes, the Exif identifier, a payload of
    [(length - 10) mod 65536] bytes that [parseTIFF] decodes into the
    returned document, and then the bytes left in the reader. *)
Theorem parse_Ok_layout (r : Reader) (h : JPEGHeader) (r' : Reader) :
  parse r = Ok (h, r') ->
  exists lenBytes app1Length payload a,
    r = soiMarker ++ app1marker ++ lenBytes ++ exifMarker ++ payload ++ r' /\
    len lenBytes = 2 /\
    BigEndianUint16 lenBytes = Ok app1Length /\
    len payload = uint16 (app1Length - 10) /\
    parseTIFF payload = Ok a /\
    h = mkJPEGHeader (Some a).
Proof.
  unfold parse. intros H. apply wrap_Ok_inv in H.
  unfold parseJPEGHeader in H.
  apply bind_Ok_inv in H. destruct H as ([b0 r0] & H0 & H).
  destruct (bytesEqual b0 soiMarker) eqn:E0; [| discriminate]. cbn [negb] in H.
  apply bytesEqual_eq in E0. subst b0.
  apply bind_Ok_inv in H. destruct H as ([a r1] & H1 & H).
  apply wrap_Ok_inv in H1. injection H as <- <-.
  unfold parseAPP1 in H1.
  apply bind_Ok_inv in H1. destruct H1 as ([p r2] & Hp & H1).
  apply bind_Ok_inv in H1. destruct H1 as (a' & Ha & H1).
  apply wrap_Ok_inv in Ha. injection H1 as -> ->.
  apply readBytes_split in H0. destruct H0 as [-> _].
  apply readTIFFPayload_Ok_inv in Hp.
  destruct Hp as (lb & L & -> & Hlb & HL & Hlen).
  exists lb, L, p, a. repeat split; assumption.
Qed.

Lemma parse_Ok_layout_witness :
  exists lenBytes app1Length payload a,
    (bytesOf [0xff; 0xd8; 0xff; 0xe1; 0; 24; 0x45; 0x78; 0x69; 0x66; 0; 0]
     ++ tiffEmpty)
    = soiMarker ++ app1marker ++ lenBytes ++ exifMarker ++ payload ++ [] /\
    len lenBytes = 2 /\
    BigEndianUint16 lenBytes = Ok app1Length /\
    len payload = uint16 (app1Length - 10) /\
    parseTIFF payload = Ok a /\
    mkJPEGHeader (Some (mkAPP1 LittleEndian [] (Some (mkIFD [] [])) None None
                          None (Some (mkIFD [] []))))
    = mkJPEGHeader (Some a).
Proof.
  apply (parse_Ok_layout
           (bytesOf [0xff; 0xd8; 0xff; 0xe1; 0; 24; 0x45; 0x78; 0x69; 0x66; 0; 0]
            ++ tiffEmpty)).
  vm_compute. reflexivity.
Defined.

Lemma readBytes_Err_isReadError (r : Reader) (n : Z) (err : error) :
  readBytes r n = Err err -> isReadError err.
Proof.
  intros H. apply readBytes_Err_inv in H. exists n.
  destruct H as [-> | ->]; [left; reflexivity | right; eexists; reflexivity].
Qed.

Lemma readTIFFPayload_Err_inv (r : Reader) (err : error) :
  readTIFFPayload r = Err err ->
  isReadError err \/ err = APP1MarkerNotFound \/ err = ExifMarkerNotFound.
Proof.
  unfold readTIFFPayload. intros H.
  apply bind_Err_inv in H. destruct H as [H | ([b0 r0] & _ & H)];
    [left; eapply readBytes_Err_isReadError; exact H |].
  destruct (negb (bytesEqual b0 app1marker)); [right; left; congruence |].
  apply bind_Err_inv in H. destruct H as [H | ([b1 r1] & _ & H)];
    [left; eapply readBytes_Err_isReadError; exact H |].
  apply bind_Err_inv in H. destruct H as [H | (L & _ & H)];
    [exfalso; eapply Uint16_not_Err; exact H |].
  apply bind_Err_inv in H. destruct H as [H | ([b2 r2] & _ & H)];
    [left; eapply readBytes_Err_isReadError; exact H |].
  destruct (negb (bytesEqual b2 exifMarker)); [right; right; congruence |].
  left. eapply readBytes_Err_isReadError. exact H.
Qed.

Lemma parseTIFF_Err_inv (b : list byte) (err : error) :
  parseTIFF b = Err err ->
  exists m, err = InvalidEndian m \/ err = InvalidTIFFVersion m.
Proof.
  intros H.
  destruct (readTIFFHeader b) as [[endian off] | e |] eqn:Hh.
  - exfalso. eapply parseTIFF_not_Err_after_header; eassumption.
  - unfold parseTIFF in H. rewrite Hh in H. cbn [bind] in H.
    injection H as <-. eapply readTIFFHeader_Err_inv. exact Hh.
  - unfold parseTIFF in H. rewrite Hh in H. discriminate.
Qed.

(** X3.  Every error [parse] returns is "Could not parse JPEG header"
    around one of: a read error, "SOI not found", or "Could not parse APP1"
    around a read error, "APP1 marker not found", "Exif marker not found" or
    "Could not parse TIFF" around an invalid byte-order marker or version.
    The messages about the IFDs and their elements are never returned. *)
Theorem parse_Err_kinds (r : Reader) (err : error) :
  parse r = Err err ->
  exists e1, err = CouldNotParseJPEGHeader e1 /\
    (isReadError e1 \/ e1 = SOINotFound \/
     exists e2, e1 = CouldNotParseAPP1 e2 /\
       (isReadError e2 \/ e2 = APP1MarkerNotFound \/ e2 = ExifMarkerNotFound \/
        exists m, e2 = CouldNotParseTIFF (InvalidEndian m) \/
                  e2 = CouldNotParseTIFF (InvalidTIFFVersion m))).
Proof.
  unfold parse. intros H.
  destruct (parseJPEGHeader r) as [x | e1 |] eqn:E; try discriminate.
  injection H as <-. exists e1. split; [reflexivity |].
  unfold parseJPEGHeader in E.
  apply bind_Err_inv in E. destruct E as [E | ([b0 r0] & _ & E)];
    [left; eapply readBytes_Err_isReadError; exact E |].
  destruct (negb (bytesEqual b0 soiMarker)); [right; left; congruence |].
  right; right.
  apply bind_Err_inv in E. destruct E as [E | ([a r1] & _ & E)]; [| discriminate].
  destruct (parseAPP1 r0) as [x | e2 |] eqn:E2; try discriminate.
  injection E as <-. exists e2. split; [reflexivity |].
  unfold parseAPP1 in E2.
  apply bind_Err_inv in E2. destruct E2 as [E2 | ([p r2] & _ & E2)].
  { apply readTIFFPayload_Err_inv in E2. tauto. }
  apply bind_Err_inv in E2. destruct E2 as [E2 | (a & _ & E2)]; [| discriminate].
  destruct (parseTIFF p) as [x | e3 |] eqn:E3; try discriminate.
  injection E2 as <-. apply parseTIFF_Err_inv in E3.
  right; right; right. destruct E3 as [m [-> | ->]]; exists m; tauto.
Qed.

Lemma parse_Err_kinds_witness :
  exists e1, CouldNotParseJPEGHeader (CouldNotParseAPP1 ExifMarkerNotFound)
             = CouldNotParseJPEGHeader e1 /\
    (isReadError e1 \/ e1 = SOINotFound \/
     exists e2, e1 = CouldNotParseAPP1 e2 /\
       (isReadError e2 \/ e2 = APP1MarkerNotFound \/ e2 = ExifMarkerNotFound \/
        exists m, e2 = CouldNotParseTIFF (InvalidEndian m) \/
                  e2 = CouldNotParseTIFF (InvalidTIFFVersion m))).
Proof.
  apply (parse_Err_kinds
           (bytesOf [0xff; 0xd8; 0xff; 0xe1; 0; 16; 0; 0; 0; 0; 0; 0; 1; 2; 3; 4; 5; 6])).
  vm_compute. reflexivity.
Defined.

(** ** Byte values *)

Lemma lor_shiftl_add (a b k : Z) :
  0 <= k -> 0 <= a < 2 ^ k -> Z.lor a (Z.shiftl b k) = a + b * 2 ^ k.
Proof.
  intros Hk Ha.
  assert (D : Z.land a (Z.shiftl b k) = 0).
  { apply Z.bits_inj'. intros n Hn.
    rewrite Z.land_spec, Z.bits_0.
    destruct (Z_lt_le_dec n k) as [L | L].
    - rewrite Z.shiftl_spec_low by exact L. apply andb_false_r.
    - rewrite <- (Z.mod_small a (2 ^ k)) by exact Ha.
      rewrite Z.mod_pow2_bits_high by lia. reflexivity. }
  rewrite <- Z.lxor_lor by exact D.
  rewrite <- Z.add_nocarry_lxor by exact D.
  rewrite Z.shiftl_mul_pow2 by exact Hk. reflexivity.
Qed.

Lemma byteval_inj (x y : byte) : byteval x = byteval y -> x = y.
Proof.
  unfold byteval. intros H. apply N2Z.inj in H.
  pose proof (Byte.of_to_N x) as Hx. rewrite H, Byte.of_to_N in Hx.
  congruence.
Qed.

Lemma Uint16_BigEndian_value (b0 b1 : byte) (t : list byte) :
  Uint16 BigEndian (b0 :: b1 :: t) = Ok (256 * byteval b0 + byteval b1).
Proof.
  cbn [Uint16]. f_equal.
  rewrite lor_shiftl_add; [change (2 ^ 8) with 256; lia | lia |].
  pose proof (byteval_range b1). change (2 ^ 8) with 256. lia.
Qed.

Lemma Uint16_LittleEndian_value (b0 b1 : byte) (t : list byte) :
  Uint16 LittleEndian (b0 :: b1 :: t) = Ok (byteval b0 + 256 * byteval b1).
Proof.
  cbn [Uint16]. f_equal.
  rewrite lor_shiftl_add; [change (2 ^ 8) with 256; lia | lia |].
  pose proof (byteval_range b0). change (2 ^ 8) with 256. lia.
Qed.

Lemma readBytes_app (b r' : list byte) :
  readBytes (b ++ r') (len b) = Ok (b, r').
Proof.
  unfold readBytes.
  replace (len b <? 0) with false by (symmetry; apply Z.ltb_ge; unfold len; lia).
  destruct (len b =? 0) eqn:E1.
  - apply Z.eqb_eq in E1.
    destruct b; [reflexivity | unfold len in E1; simpl in E1; lia].
  - apply Z.eqb_neq in E1.
    assert (L : len (b ++ r') = len b + len r')
      by (unfold len; rewrite length_app; lia).
    replace (len (b ++ r') =? 0) with false
      by (symmetry; apply Z.eqb_neq; unfold len in *; lia).
    replace (len (b ++ r') <? len b) with false
      by (symmetry; apply Z.ltb_ge; unfold len in *; lia).
    unfold len. rewrite Nat2Z.id.
    rewrite firstn_app, skipn_app, Nat.sub_diag, firstn_all, skipn_all.
    simpl. rewrite app_nil_r. reflexivity.
Qed.

(** After the APP1 marker, two length bytes [hi lo] and the Exif
    identifier, [parseAPP1] asks the reader for
    [(256*hi + lo - 10) mod 65536] bytes. *)
Lemma readTIFFPayload_after_prefix (hi lo : byte) (rest : list byte) :
  readTIFFPayload (app1marker ++ [hi; lo] ++ exifMarker ++ rest)
  = readBytes rest (uint16 (256 * byteval hi + byteval lo - 10)).
Proof.
  unfold readTIFFPayload.
  change 2 with (len app1marker) at 1.
  rewrite readBytes_app. cbn [bind negb].
  replace (bytesEqual app1marker app1marker) with true by reflexivity.
  cbn [negb].
  change 2 with (len [hi; lo]).
  rewrite readBytes_app. cbn [bind].
  unfold BigEndianUint16. rewrite Uint16_BigEndian_value. cbn [bind].
  change 6 with (len exifMarker).
  rewrite readBytes_app. cbn [bind].
  replace (bytesEqual exifMarker exifMarker) with true by reflexivity.
  cbn [negb]. unfold sub16.
  rewrite int_small; [reflexivity |].
  pose proof (uint16_range (256 * byteval hi + byteval lo - 10)). lia.
Qed.

(** X4.  A declared length below 10 wraps: the reader is asked for
    [length + 65526] bytes, so unless that many bytes follow the identifier
    the segment is rejected with a read error. *)
Theorem readTIFFPayload_short_declared_length (hi lo : byte)
    (rest : list byte) :
  256 * byteval hi + byteval lo < 10 ->
  len rest < 256 * byteval hi + byteval lo + 65526 ->
  exists err,
    readTIFFPayload (app1marker ++ [hi; lo] ++ exifMarker ++ rest) = Err err /\
    (err = CouldNotRead (256 * byteval hi + byteval lo + 65526) \/
     err = CouldNotReadGot (256 * byteval hi + byteval lo + 65526) (len rest)).
Proof.
  intros HL Hrest. rewrite readTIFFPayload_after_prefix.
  pose proof (byteval_range hi). pose proof (byteval_range lo).
  assert (E : uint16 (256 * byteval hi + byteval lo - 10)
              = 256 * byteval hi + byteval lo + 65526).
  { unfold uint16. symmetry. apply Z.mod_unique with (q := -1); lia. }
  rewrite E. unfold readBytes.
  replace (_ <? 0) with false by (symmetry; apply Z.ltb_ge; lia).
  replace (_ =? 0) with false by (symmetry; apply Z.eqb_neq; lia).
  destruct (len rest =? 0).
  - eexists. split; [reflexivity | left; reflexivity].
  - replace (len rest <? _) with true by (symmetry; apply Z.ltb_lt; lia).
    eexists. split; [reflexivity | right; reflexivity].
Qed.

Lemma readTIFFPayload_short_declared_length_witness :
  exists err,
    readTIFFPayload (app1marker ++ [x00; x08] ++ exifMarker ++ []) = Err err /\
    (err = CouldNotRead (256 * byteval x00 + byteval x08 + 65526) \/
     err = CouldNotReadGot (256 * byteval x00 + byteval x08 + 65526) (len [])).
Proof.
  apply (readTIFFPayload_short_declared_length x00 x08 []).
  - vm_compute. reflexivity.
  - vm_compute. reflexivity.
Defined.

(** ** The TIFF header *)

Lemma readTIFFHeader_cons (b0 b1 b2 b3 b4 b5 b6 b7 : byte) (t : list byte) :
  readTIFFHeader (b0 :: b1 :: b2 :: b3 :: b4 :: b5 :: b6 :: b7 :: t)
  = (endian <- (if bytesEqual [b0; b1] [x4d; x4d] then Ok BigEndian
                else if bytesEqual [b0; b1] [x49; x49] then Ok LittleEndian
                else Err (InvalidEndian [b0; b1])) ;;
     version <- Uint16 endian [b2; b3] ;;
     if negb (version =? 42) then Err (InvalidTIFFVersion [b2; b3])
     else ifdOffset <- Uint32 endian [b4; b5; b6; b7] ;; Ok (endian, ifdOffset)).
Proof.
  unfold readTIFFHeader.
  rewrite !slice_Ok by (unfold len; cbn [length]; lia).
  reflexivity.
Qed.

Lemma version_bytes_BigEndian (b2 b3 : byte) :
  256 * byteval b2 + byteval b3 = 42 <-> b2 = x00 /\ b3 = x2a.
Proof.
  pose proof (byteval_range b2). pose proof (byteval_range b3). split.
  - intros H1. split; apply byteval_inj.
    + change (byteval x00) with 0. lia.
    + change (byteval x2a) with 42. lia.
  - intros [-> ->]. reflexivity.
Qed.

Lemma version_bytes_LittleEndian (b2 b3 : byte) :
  byteval b2 + 256 * byteval b3 = 42 <-> b2 = x2a /\ b3 = x00.
Proof.
  pose proof (byteval_range b2). pose proof (byteval_range b3). split.
  - intros H1. split; apply byteval_inj.
    + change (byteval x2a) with 42. lia.
    + change (byteval x00) with 0. lia.
  - intros [-> ->]. reflexivity.
Qed.

(** X5.  The header is accepted exactly when the buffer has at least 8
    bytes and starts with [4D 4D 00 2A] (big endian) or [49 49 2A 00]
    (little endian); the offset of the 0th IFD is then bytes 4..8 read in
    that byte order, with no check on its value. *)
Theorem readTIFFHeader_Ok_iff (b : list byte) (endian : ByteOrder) (off : Z) :
  readTIFFHeader b = Ok (endian, off) <->
  8 <= len b /\ firstn 4 b = tiffMagic endian /\
  Uint32 endian (firstn 4 (skipn 4 b)) = Ok off.
Proof.
  split.
  - intros H. pose proof (readTIFFHeader_inv _ _ _ H) as [L _].
    split; [exact L |].
    do 8 (destruct b as [| ? b]; [unfold len in L; simpl in L; lia |]).
    rewrite readTIFFHeader_cons in H. cbn [firstn skipn].
    destruct (bytesEqual [b0; b1] [x4d; x4d]) eqn:EM.
    + apply bytesEqual_eq in EM. injection EM as -> ->. cbn [bind] in H.
      rewrite Uint16_BigEndian_value in H. cbn [bind] in H.
      destruct (256 * byteval b2 + byteval b3 =? 42) eqn:V;
        cbn [negb] in H; [| discriminate].
      apply Z.eqb_eq, version_bytes_BigEndian in V. destruct V as [-> ->].
      apply bind_Ok_inv in H. destruct H as (o & Ho & H).
      injection H as <- <-. split; [reflexivity | exact Ho].
    + destruct (bytesEqual [b0; b1] [x49; x49]) eqn:EI; [| discriminate].
      apply bytesEqual_eq in EI. injection EI as -> ->. cbn [bind] in H.
      rewrite Uint16_LittleEndian_value in H. cbn [bind] in H.
      destruct (byteval b2 + 256 * byteval b3 =? 42) eqn:V;
        cbn [negb] in H; [| discriminate].
      apply Z.eqb_eq, version_bytes_LittleEndian in V. destruct V as [-> ->].
      apply bind_Ok_inv in H. destruct H as (o & Ho & H).
      injection H as <- <-. split; [reflexivity | exact Ho].
  - intros (L & M & O).
    do 8 (destruct b as [| ? b]; [unfold len in L; simpl in L; lia |]).
    rewrite readTIFFHeader_cons. cbn [firstn skipn] in M, O.
    destruct endian; cbn [tiffMagic] in M; injection M as -> -> -> ->.
    + replace (bytesEqual [x4d; x4d] [x4d; x4d]) with true by reflexivity.
      cbn [bind]. replace (Uint16 BigEndian [x00; x2a]) with (@Ok Z 42)
        by reflexivity.
      cbn [bind]. replace (negb (42 =? 42)) with false by reflexivity.
      rewrite O. reflexivity.
    + replace (bytesEqual [x49; x49] [x4d; x4d]) with false by reflexivity.
      replace (bytesEqual [x49; x49] [x49; x49]) with true by reflexivity.
      cbn [bind]. replace (Uint16 LittleEndian [x2a; x00]) with (@Ok Z 42)
        by reflexivity.
      cbn [bind]. replace (negb (42 =? 42)) with false by reflexivity.
      rewrite O. reflexivity.
Qed.

Lemma sliceFrom_inv (b : list byte) (lo : Z) (s : list byte) :
  sliceFrom b lo = Ok s ->
  0 <= lo <= len b /\ s = skipn (Z.to_nat lo) b /\ len s = len b - lo.
Proof.
  unfold sliceFrom. intros H. apply slice_inv in H.
  destruct H as (H0 & H1 & _ & -> & L).
  split; [lia |]. split; [| exact L].
  apply firstn_all2. rewrite length_skipn. unfold len. lia.
Qed.

(** X6.  In every document [parseTIFF] returns, the byte order is the one
    of the accepted header, the offset of the 0th IFD lies between 8 and
    the buffer length, [rawPreIFD] is the region between the header and the
    0th IFD, and [IFD0] is set to the directory decoded from the buffer
    tail at that offset. *)
Theorem parseTIFF_Ok_header (b : list byte) (a : APP1) :
  parseTIFF b = Ok a ->
  exists off d0,
    readTIFFHeader b = Ok (Endian a, off) /\
    8 <= off <= len b /\
    rawPreIFD a = firstn (Z.to_nat (off - 8)) (skipn 8 b) /\
    len (rawPreIFD a) = off - 8 /\
    IFD0 a = Some d0 /\
    parseIFD (skipn (Z.to_nat off) b) (Endian a) = Ok d0.
Proof.
  intros H. apply parseTIFF_Ok_inv in H.
  destruct H as (endian & off & pre & s3 & d0 & Hh & Hpre & Hs3 & Hd0 & H).
  apply parseLinkedIFDs_Ok_inv in H.
  destruct H as (exif & gps & io & s4 & d1 & _ & _ & _ & _ & _ & ->).
  cbn [Endian rawPreIFD IFD0].
  apply slice_inv in Hpre. destruct Hpre as (_ & Hlo & Hhi & -> & Lp).
  apply sliceFrom_inv in Hs3. destruct Hs3 as (_ & -> & _).
  exists off, d0. repeat split; try assumption.
Qed.

Lemma parseTIFF_Ok_header_witness :
  exists off d0,
    readTIFFHeader tiffOneEntry = Ok (Endian docOneEntry, off) /\
    8 <= off <= len tiffOneEntry /\
    rawPreIFD docOneEntry = firstn (Z.to_nat (off - 8)) (skipn 8 tiffOneEntry) /\
    len (rawPreIFD docOneEntry) = off - 8 /\
    IFD0 docOneEntry = Some d0 /\
    parseIFD (skipn (Z.to_nat off) tiffOneEntry) (Endian docOneEntry) = Ok d0.
Proof.
  apply (parseTIFF_Ok_header tiffOneEntry docOneEntry).
  vm_compute. reflexivity.
Defined.

Lemma readTIFFHeader_Ok_iff_witness :
  readTIFFHeader tiffTrailer14 = Ok (LittleEndian, 8).
Proof.
  apply (proj2 (readTIFFHeader_Ok_iff tiffTrailer14 LittleEndian 8)).
  repeat split; vm_compute; congruence.
Defined.

(** ** Bytes after the decoded structures are ignored *)

Lemma slice_app (b x : list byte) (lo hi : Z) (s : list byte) :
  slice b lo hi = Ok s -> slice (b ++ x) lo hi = Ok s.
Proof.
  intros H. apply slice_inv in H. destruct H as (H0 & H1 & H2 & -> & _).
  rewrite slice_Ok; [| lia | lia | unfold len in *; rewrite length_app; lia].
  f_equal. rewrite skipn_app, firstn_app.
  replace (Z.to_nat (hi - lo) - length (skipn (Z.to_nat lo) b))%nat with 0%nat
    by (rewrite length_skipn; unfold len in *; lia).
  cbn [firstn]. apply app_nil_r.
Qed.

Lemma sliceFrom_app (b x : list byte) (lo : Z) (s : list byte) :
  sliceFrom b lo = Ok s -> sliceFrom (b ++ x) lo = Ok (s ++ x).
Proof.
  intros H. apply sliceFrom_inv in H. destruct H as (H0 & -> & _).
  unfold sliceFrom.
  rewrite slice_Ok; [| lia | unfold len in *; rewrite length_app; lia | lia].
  f_equal. rewrite firstn_all2.
  - rewrite skipn_app.
    replace (Z.to_nat lo - length b)%nat with 0%nat by (unfold len in *; lia).
    reflexivity.
  - rewrite length_skipn. unfold len. lia.
Qed.

Lemma parseIFDElement_app (s ifd x : list byte) (endian : ByteOrder)
    (e : IFDElement) :
  parseIFDElement s ifd endian = Ok e ->
  parseIFDElement s (ifd ++ x) endian = Ok e.
Proof.
  unfold parseIFDElement.
  destruct (negb (len s =? 12)); [discriminate |].
  destruct (newIFDElement s endian) as [e0 | |]; try discriminate.
  cbn [bind]. destruct (Length e0 >? 4); [| trivial].
  destruct (ElementUint32 e0 endian) as [o | |]; try discriminate.
  cbn [bind]. intros H.
  apply bind_Ok_inv in H. destruct H as (v & Hv & H).
  rewrite (slice_app _ x _ _ _ Hv). exact H.
Qed.

Lemma parseElements_app (b x : list byte) (endian : ByteOrder) (n : nat) :
  forall i l, parseElements b endian n i = Ok l ->
              parseElements (b ++ x) endian n i = Ok l.
Proof.
  induction n as [| n IH]; intros i l H; [exact H |].
  cbn [parseElements] in *.
  apply bind_Ok_inv in H. destruct H as (s & Hs & H).
  rewrite (slice_app _ x _ _ _ Hs). cbn [bind].
  destruct (parseIFDElement s b endian) as [e | |] eqn:Ee; try discriminate.
  rewrite (parseIFDElement_app _ _ x _ _ Ee).
  apply bind_Ok_inv in H. destruct H as (rest & Hr & H).
  rewrite (IH _ _ Hr). exact H.
Qed.

Lemma parseIFD_app (b x : list byte) (endian : ByteOrder) (d : IFD) :
  parseIFD b endian = Ok d -> parseIFD (b ++ x) endian = Ok d.
Proof.
  unfold parseIFD, readElementCount, readValuesLength. intros H.
  apply bind_Ok_inv in H. destruct H as (ec & Hec & H).
  apply bind_Ok_inv in Hec. destruct Hec as (s0 & Hs0 & Hec).
  rewrite (slice_app _ x _ _ _ Hs0). cbn [bind]. rewrite Hec. cbn [bind].
  apply bind_Ok_inv in H. destruct H as (v & Hv & H).
  apply bind_Ok_inv in Hv. destruct Hv as (s1 & Hs1 & Hv).
  rewrite (slice_app _ x _ _ _ Hs1). cbn [bind].
  destruct (Uint32 endian s1) as [v0 | |]; try discriminate.
  cbn [bind] in *. injection Hv as <-.
  apply bind_Ok_inv in H. destruct H as (raw & Hraw & H).
  rewrite (slice_app _ x _ _ _ Hraw). cbn [bind].
  apply bind_Ok_inv in H. destruct H as (els & Hels & H).
  rewrite (parseElements_app _ x _ _ _ _ Hels). exact H.
Qed.

Lemma findLinked_app (els : list IFDElement) (tag : Z) (b x : list byte)
    (endian : ByteOrder) (r : option IFD) :
  findLinked els tag b endian = Ok r ->
  findLinked els tag (b ++ x) endian = Ok r.
Proof.
  induction els as [| e els IH]; [trivial |].
  cbn [findLinked]. destruct (Tag e =? tag); [| exact IH].
  intros H.
  apply bind_Ok_inv in H. destruct H as (o & Ho & H). rewrite Ho. cbn [bind].
  apply bind_Ok_inv in H. destruct H as (s & Hs & H).
  rewrite (sliceFrom_app _ x _ _ Hs). cbn [bind].
  apply bind_Ok_inv in H. destruct H as (d & Hd & H).
  rewrite (parseIFD_app _ x _ _ Hd). exact H.
Qed.

Lemma readTIFFHeader_app (b x : list byte) (h : ByteOrder * Z) :
  readTIFFHeader b = Ok h -> readTIFFHeader (b ++ x) = Ok h.
Proof.
  destruct h as [endian off]. intros H.
  pose proof (readTIFFHeader_inv _ _ _ H) as [L _].
  do 8 (destruct b as [| ? b]; [unfold len in L; simpl in L; lia |]).
  cbn [app]. rewrite readTIFFHeader_cons in *. exact H.
Qed.

(** X7.  Bytes that follow the decoded structures do not matter: when
    [parseTIFF] returns a document for a buffer, it returns the same
    document for that buffer followed by any further bytes. *)
Theorem parseTIFF_ignores_trailing_bytes (b x : list byte) (a : APP1) :
  parseTIFF b = Ok a -> parseTIFF (b ++ x) = Ok a.
Proof.
  intros H. apply parseTIFF_Ok_inv in H.
  destruct H as (endian & off & pre & s3 & d0 & Hh & Hpre & Hs3 & Hd0 & H).
  apply parseLinkedIFDs_Ok_inv in H.
  destruct H as (exif & gps & io & s4 & d1 & E1 & E2 & E3 & Hs4 & Hd1 & ->).
  pose proof (readTIFFHeader_app _ x _ Hh) as Hh'.
  rewrite (parseTIFF_after_header _ _ _ Hh').
  rewrite (slice_app _ x _ _ _ Hpre). cbn [bind].
  rewrite (sliceFrom_app _ x _ _ Hs3). cbn [bind].
  rewrite (parseIFD_app _ x _ _ Hd0). cbn [bind wrap].
  unfold parseLinkedIFDs, FindLinkedIFD in *.
  rewrite (findLinked_app _ _ _ x _ _ E1). cbn [bind wrap].
  rewrite (findLinked_app _ _ _ x _ _ E2). cbn [bind wrap].
  rewrite (findLinked_app _ _ _ x _ _ E3). cbn [bind wrap].
  rewrite (sliceFrom_app _ x _ _ Hs4). cbn [bind].
  rewrite (parseIFD_app _ x _ _ Hd1). reflexivity.
Qed.

Lemma parseTIFF_ignores_trailing_bytes_witness :
  parseTIFF (tiffOneEntry ++ bytesOf [0xDE; 0xAD]) = Ok docOneEntry.
Proof.
  apply (parseTIFF_ignores_trailing_bytes tiffOneEntry (bytesOf [0xDE; 0xAD])
           docOneEntry).
  vm_compute. reflexivity.
Defined.

(** ** Decoded directories *)

Lemma parseElements_nth (b : list byte) (endian : ByteOrder) (n : nat) :
  forall i l, parseElements b endian n i = Ok l ->
    0 <= i -> i + Z.of_nat n <= 2 ^ 16 ->
    forall k e, nth_error l k = Some e ->
      exists s, slice b (2 + 12 * (i + Z.of_nat k)) (2 + 12 * (i + Z.of_nat k) + 12)
                = Ok s /\
                parseIFDElement s b endian = Ok e.
Proof.
  induction n as [| n IH]; intros i l H Hi Hn k e Hk.
  - injection H as <-. destruct k; discriminate.
  - cbn [parseElements] in H.
    destruct (loop_offset i ltac:(lia)) as [O1 O2]. rewrite O2, O1 in H.
    apply bind_Ok_inv in H. destruct H as (s & Hs & H).
    destruct (parseIFDElement s b endian) as [x | |] eqn:Ex; try discriminate.
    apply bind_Ok_inv in H. destruct H as (rest & Hr & H).
    injection H as <-. destruct k as [| k].
    + injection Hk as <-. exists s.
      replace (i + Z.of_nat 0) with i by lia. split; assumption.
    + cbn [nth_error] in Hk.
      destruct (IH (i + 1) rest Hr ltac:(lia) ltac:(lia) k e Hk) as (s' & Hs' & He).
      exists s'. replace (i + Z.of_nat (S k)) with (i + 1 + Z.of_nat k) by lia.
      split; assumption.
Qed.

(** X8.  A decoded directory has exactly as many elements as the entry
    count read from its first two bytes, and they are in on-disk order: the
    element at index [k] is the one decoded from the 12-byte slot at
    [2 + 12*k]. *)
Theorem parseIFD_elements_in_order (b : list byte) (endian : ByteOrder)
    (d : IFD) :
  parseIFD b endian = Ok d ->
  exists ec,
    readElementCount b endian = Ok ec /\
    Z.of_nat (length (Elements d)) = ec /\
    forall k e, nth_error (Elements d) k = Some e ->
      2 + 12 * Z.of_nat k + 12 <= len b /\
      parseIFDElement (firstn 12 (skipn (Z.to_nat (2 + 12 * Z.of_nat k)) b))
                      b endian = Ok e.
Proof.
  intros H.
  destruct (parseIFD_Ok_inv _ _ _ H) as (ec & v & Hec & _ & Rec & _ & _ & Hl).
  exists ec. split; [exact Hec |]. split; [lia |].
  intros k e Hk.
  unfold parseIFD in H. rewrite Hec in H. cbn [bind] in H.
  apply bind_Ok_inv in H. destruct H as (v' & _ & H).
  apply bind_Ok_inv in H. destruct H as (raw & _ & H).
  apply bind_Ok_inv in H. destruct H as (els & Hels & H).
  injection H as <-. cbn [Elements] in *.
  rewrite int_small in Hels by lia.
  destruct (parseElements_nth _ _ _ _ _ Hels ltac:(lia) ltac:(lia) k e Hk)
    as (s & Hs & He).
  replace (0 + Z.of_nat k) with (Z.of_nat k) in Hs by lia.
  apply slice_inv in Hs. destruct Hs as (_ & _ & Hhi & -> & _).
  split; [exact Hhi |].
  replace (2 + 12 * Z.of_nat k + 12 - (2 + 12 * Z.of_nat k)) with 12 in He by lia.
  exact He.
Qed.

Lemma parseIFD_elements_in_order_witness :
  exists ec,
    readElementCount (skipn 8 tiffOneEntry) LittleEndian = Ok ec /\
    Z.of_nat (length (Elements ifdOneEntry)) = ec /\
    forall k e, nth_error (Elements ifdOneEntry) k = Some e ->
      2 + 12 * Z.of_nat k + 12 <= len (skipn 8 tiffOneEntry) /\
      parseIFDElement
        (firstn 12 (skipn (Z.to_nat (2 + 12 * Z.of_nat k)) (skipn 8 tiffOneEntry)))
        (skipn 8 tiffOneEntry) LittleEndian = Ok e.
Proof.
  apply (parseIFD_elements_in_order (skipn 8 tiffOneEntry) LittleEndian ifdOneEntry).
  vm_compute. reflexivity.
Defined.

(** X9.  A directory decoded from a buffer of at most 65535 bytes fits in
    it: the entry count is at most 5460, and the count, the entries, the
    trailer and the values region of the length given by the trailer lie
    within the buffer; [rawValues] is that region. *)
Theorem parseIFD_Ok_fits (b : list byte) (endian : ByteOrder) (d : IFD) :
  len b <= 65535 ->
  parseIFD b endian = Ok d ->
  exists ec,
    readElementCount b endian = Ok ec /\
    ec <= 5460 /\
    2 + 12 * ec + 4 + len (rawValues d) <= len b /\
    rawValues d = firstn (Z.to_nat (len (rawValues d)))
                         (skipn (Z.to_nat (2 + 12 * ec + 4)) b).
Proof.
  intros Hlen H.
  destruct (parseIFD_Ok_inv _ _ _ H) as (ec & v & Hec & Hv & Rec & Rv & Lv & Hl).
  exists ec. split; [exact Hec |].
  unfold parseIFD in H. rewrite Hec in H. cbn [bind] in H.
  rewrite Hv in H. cbn [bind] in H.
  apply bind_Ok_inv in H. destruct H as (raw & Hraw & H).
  apply bind_Ok_inv in H. destruct H as (els & Hels & H).
  injection H as <-. cbn [rawValues] in *.
  rewrite int_small in Hels by lia.
  assert (Hsmall : ec <= 5460).
  { destruct (Z_lt_le_dec ec 5461) as [L | L]; [lia |]. exfalso.
    destruct (Z_lt_le_dec ec 5462) as [L2 | L2].
    - assert (ec = 5461) by lia. subst ec.
      apply readValuesLength_inv in Hv. destruct Hv as [_ Hv].
      vm_compute in Hv. destruct Hv as [Hv _]. apply Hv. reflexivity.
    - apply (parseElements_not_Ok b endian (Z.to_nat ec) 0 els);
        [lia | lia | lia | lia | exact Hels]. }
  split; [exact Hsmall |].
  assert (E : trailerEnd ec = 2 + 12 * ec + 4)
    by (rewrite trailerEnd_mod; apply Z.mod_small; lia).
  rewrite E in Hraw. rewrite (int_small (2 + 12 * ec + 4)) in Hraw by lia.
  unfold addint in Hraw. rewrite int_small in Hraw by lia.
  apply slice_inv in Hraw. destruct Hraw as (_ & _ & Hhi & Eraw & _).
  split; [lia |].
  rewrite Lv. rewrite Eraw at 1. f_equal. lia.
Qed.

Lemma parseIFD_Ok_fits_witness :
  exists ec,
    readElementCount (skipn 8 tiffTrailer14) LittleEndian = Ok ec /\
    ec <= 5460 /\
    2 + 12 * ec + 4
      + len (rawValues (mkIFD [] (bytesOf [0; 0; 2; 0; 0; 0; 0xEE; 0xFF; 0; 0; 0; 0; 0; 0])))
      <= len (skipn 8 tiffTrailer14) /\
    rawValues (mkIFD [] (bytesOf [0; 0; 2; 0; 0; 0; 0xEE; 0xFF; 0; 0; 0; 0; 0; 0]))
    = firstn (Z.to_nat (len (rawValues
                (mkIFD [] (bytesOf [0; 0; 2; 0; 0; 0; 0xEE; 0xFF; 0; 0; 0; 0; 0; 0])))))
             (skipn (Z.to_nat (2 + 12 * ec + 4)) (skipn 8 tiffTrailer14)).
Proof.
  apply (parseIFD_Ok_fits (skipn 8 tiffTrailer14) LittleEndian
           (mkIFD [] (bytesOf [0; 0; 2; 0; 0; 0; 0xEE; 0xFF; 0; 0; 0; 0; 0; 0]))).
  - vm_compute. discriminate.
  - vm_compute. reflexivity.
Defined.

Lemma parseIFDElement_Ok_inv (slot ifd : list byte) (endian : ByteOrder)
    (e : IFDElement) :
  parseIFDElement slot ifd endian = Ok e ->
  exists e0,
    len slot = 12 /\ newIFDElement slot endian = Ok e0 /\
    Tag e = Tag e0 /\ Type_ e = Type_ e0 /\ Count e = Count e0 /\
    rawValue e = rawValue e0 /\
    ((Length e <= 4 /\ Value e = rawValue e) \/
     (4 < Length e /\
      exists o, ElementUint32 e endian = Ok o /\
                slice ifd o (add32 o (uint32 (Length e))) = Ok (Value e))).
Proof.
  unfold parseIFDElement.
  destruct (len slot =? 12) eqn:E12; cbn [negb]; [| discriminate].
  apply Z.eqb_eq in E12. intros H.
  apply bind_Ok_inv in H. destruct H as (e0 & He0 & H).
  exists e0. split; [exact E12 |]. split; [exact He0 |].
  destruct (Length e0 >? 4) eqn:EL.
  - apply bind_Ok_inv in H. destruct H as (o & Ho & H).
    apply bind_Ok_inv in H. destruct H as (v & Hv & H).
    injection H as <-. cbn [setValue Tag Type_ Count rawValue Value].
    repeat split. right.
    rewrite Z.gtb_ltb in EL. apply Z.ltb_lt in EL.
    change (Length (mkIFDElement (Tag e0) (Type_ e0) (Count e0) v (rawValue e0)))
      with (Length e0).
    split; [exact EL |]. exists o. split; [exact Ho | exact Hv].
  - injection H as <-. cbn [setValue Tag Type_ Count rawValue Value].
    repeat split. left.
    rewrite Z.gtb_ltb in EL. apply Z.ltb_ge in EL.
    split; [exact EL | reflexivity].
Qed.

Lemma indirect_slice_length (ifd : list byte) (o l : Z) (v : list byte) :
  0 <= o < 2 ^ 32 -> 0 <= l < 2 ^ 32 ->
  slice ifd o (add32 o l) = Ok v ->
  o + l <= len ifd /\ o + l < 2 ^ 32 /\
  v = firstn (Z.to_nat l) (skipn (Z.to_nat o) ifd) /\ len v = l.
Proof.
  intros Ho Hl H. apply slice_inv in H.
  destruct H as (_ & Hlo & Hhi & -> & L).
  destruct (Z_lt_le_dec (o + l) (2 ^ 32)) as [S | B].
  - unfold add32 in *. rewrite uint32_small in * by lia.
    replace (o + l - o) with l in * by lia.
    repeat split; first [lia | exact L].
  - exfalso. rewrite add32_wrap in Hlo by lia. lia.
Qed.

(** X10.  Every element [parseIFDElement] returns comes from a 12-byte
    slot, keeps bytes 8..12 of the slot as its 4-byte raw field, and has a
    value of 4 bytes when its computed length is at most 4, and of
    [length mod 2^32] bytes otherwise. *)
Theorem parseIFDElement_Value_length (slot ifd : list byte)
    (endian : ByteOrder) (e : IFDElement) :
  parseIFDElement slot ifd endian = Ok e ->
  len slot = 12 /\
  rawValue e = firstn 4 (skipn 8 slot) /\
  0 <= Tag e < 2 ^ 16 /\ 0 <= Type_ e < 2 ^ 16 /\ 0 <= Count e < 2 ^ 32 /\
  len (Value e) = (if Length e >? 4 then uint32 (Length e) else 4).
Proof.
  intros H. apply parseIFDElement_Ok_inv in H.
  destruct H as (e0 & L12 & He0 & T & Ty & C & R & V).
  destruct (newIFDElement_inv _ _ _ L12 He0) as (R0 & _ & L4 & RT & RTy & RC).
  rewrite T, Ty, C, R.
  repeat split; try lia; try assumption.
  destruct V as [[HL ->] | (HL & o & Ho & Hs)].
  - replace (Length e >? 4) with false
      by (symmetry; rewrite Z.gtb_ltb; apply Z.ltb_ge; exact HL).
    rewrite R. exact L4.
  - replace (Length e >? 4) with true
      by (symmetry; rewrite Z.gtb_ltb; apply Z.ltb_lt; exact HL).
    apply Uint32_range in Ho.
    apply indirect_slice_length in Hs; [tauto | exact Ho | apply uint32_range].
Qed.

Lemma parseIFDElement_Value_length_witness :
  len slotHuge = 12 /\
  rawValue (mkIFDElement 271 10 268435457
              (bytesOf [2; 3; 4; 5; 6; 7; 8; 9; 10; 11; 12; 13; 14; 15; 16; 17])
              (bytesOf [2; 0; 0; 0]))
  = firstn 4 (skipn 8 slotHuge) /\
  0 <= 271 < 2 ^ 16 /\ 0 <= 10 < 2 ^ 16 /\ 0 <= 268435457 < 2 ^ 32 /\
  len (bytesOf [2; 3; 4; 5; 6; 7; 8; 9; 10; 11; 12; 13; 14; 15; 16; 17])
  = (if Length (mkIFDElement 271 10 268435457
                  (bytesOf [2; 3; 4; 5; 6; 7; 8; 9; 10; 11; 12; 13; 14; 15; 16; 17])
                  (bytesOf [2; 0; 0; 0])) >? 4
     then uint32 (Length (mkIFDElement 271 10 268435457
                  (bytesOf [2; 3; 4; 5; 6; 7; 8; 9; 10; 11; 12; 13; 14; 15; 16; 17])
                  (bytesOf [2; 0; 0; 0])))
     else 4).
Proof.
  apply (parseIFDElement_Value_length slotHuge ifd20 LittleEndian
           (mkIFDElement 271 10 268435457
              (bytesOf [2; 3; 4; 5; 6; 7; 8; 9; 10; 11; 12; 13; 14; 15; 16; 17])
              (bytesOf [2; 0; 0; 0]))).
  vm_compute. reflexivity.
Defined.

(** X11.  Indirect values are located from the start of the directory, not
    from the start of the TIFF buffer: in the 0th IFD of a decoded document
    (directory at [off]), an element whose length exceeds 4 and whose raw
    field holds the uint32 [o] has as value the [length mod 2^32] bytes of
    the buffer starting at [off + o], which lie within the buffer. *)
Theorem IFD0_indirect_value_position (b : list byte) (a : APP1)
    (endian : ByteOrder) (off : Z) (d0 : IFD) (e : IFDElement) :
  parseTIFF b = Ok a ->
  readTIFFHeader b = Ok (endian, off) ->
  IFD0 a = Some d0 ->
  In e (Elements d0) ->
  4 < Length e ->
  exists o,
    ElementUint32 e endian = Ok o /\
    off + o + uint32 (Length e) <= len b /\
    Value e = firstn (Z.to_nat (uint32 (Length e))) (skipn (Z.to_nat (off + o)) b).
Proof.
  intros H Hh H0 Hin HL. apply parseTIFF_Ok_inv in H.
  destruct H as (endian' & off' & pre & s3 & d & Hh' & _ & Hs3 & Hd & H).
  rewrite Hh in Hh'. injection Hh' as <- <-.
  apply parseLinkedIFDs_Ok_inv in H.
  destruct H as (exif & gps & io & s4 & d1 & _ & _ & _ & _ & _ & ->).
  cbn [IFD0] in H0. injection H0 as ->.
  apply sliceFrom_inv in Hs3. destruct Hs3 as (Hoff & -> & Ls3).
  apply In_nth_error in Hin. destruct Hin as [k Hk].
  unfold parseIFD in Hd.
  apply bind_Ok_inv in Hd. destruct Hd as (ec & Hec & Hd).
  apply readElementCount_inv in Hec. destruct Hec as [_ Rec].
  apply bind_Ok_inv in Hd. destruct Hd as (v & _ & Hd).
  apply bind_Ok_inv in Hd. destruct Hd as (raw & _ & Hd).
  apply bind_Ok_inv in Hd. destruct Hd as (els & Hels & Hd).
  injection Hd as <-. cbn [Elements] in Hk.
  rewrite int_small in Hels by lia.
  destruct (parseElements_nth _ _ _ _ _ Hels ltac:(lia) ltac:(lia) k e Hk)
    as (s & _ & He).
  apply parseIFDElement_Ok_inv in He.
  destruct He as (e0 & _ & _ & _ & _ & _ & _ & [[HL' _] | (_ & o & Ho & Hs)]);
    [lia |].
  exists o. split; [exact Ho |].
  pose proof (Uint32_range _ _ _ Ho) as Ro.
  apply indirect_slice_length in Hs; [| exact Ro | apply uint32_range].
  destruct Hs as (Hfit & _ & Hv & _).
  split; [lia |].
  rewrite Hv, skipn_skipn. f_equal. f_equal. lia.
Qed.

Lemma IFD0_indirect_value_position_witness :
  exists o,
    ElementUint32 canonEntry LittleEndian = Ok o /\
    8 + o + uint32 (Length canonEntry) <= len tiffIndirect /\
    Value canonEntry
    = firstn (Z.to_nat (uint32 (Length canonEntry)))
             (skipn (Z.to_nat (8 + o)) tiffIndirect).
Proof.
  apply (IFD0_indirect_value_position tiffIndirect docIndirect LittleEndian 8
           (mkIFD [canonEntry] []) canonEntry).
  - vm_compute. reflexivity.
  - vm_compute. reflexivity.
  - reflexivity.
  - left. reflexivity.
  - vm_compute. reflexivity.
Defined.

(** X12.  When the 0th IFD of a decoded document has an entry with one of
    the three pointer tags, the corresponding field is set to the directory
    decoded from the buffer tail at the uint32 held in the raw field of the
    first such entry, an absolute offset within the buffer; the entry's
    type and count play no part. *)
Theorem pointer_tag_sets_field (b : list byte) (a : APP1) (d0 : IFD)
    (pre post : list IFDElement) (e : IFDElement) (tag : Z) :
  parseTIFF b = Ok a ->
  IFD0 a = Some d0 ->
  Elements d0 = pre ++ e :: post ->
  (forall x, In x pre -> Tag x <> tag) ->
  Tag e = tag ->
  tag = 34665 \/ tag = 34853 \/ tag = 40965 ->
  exists o d,
    ElementUint32 e (Endian a) = Ok o /\
    o <= len b /\
    parseIFD (skipn (Z.to_nat o) b) (Endian a) = Ok d /\
    (tag = 34665 -> ExifIFD a = Some d) /\
    (tag = 34853 -> GPSIFD a = Some d) /\
    (tag = 40965 -> InteroperabilityIFD a = Some d).
Proof.
  intros H H0 Hels Hpre He Htag. apply parseTIFF_Ok_inv in H.
  destruct H as (endian & off & p & s3 & d & _ & _ & _ & _ & H).
  apply parseLinkedIFDs_Ok_inv in H.
  destruct H as (exif & gps & io & s4 & d1 & E1 & E2 & E3 & _ & _ & ->).
  cbn [IFD0] in H0. injection H0 as ->.
  cbn [Endian ExifIFD GPSIFD InteroperabilityIFD].
  assert (F : forall r, FindLinkedIFD d0 tag b endian = Ok r ->
              exists o d, ElementUint32 e endian = Ok o /\ o <= len b /\
                          parseIFD (skipn (Z.to_nat o) b) endian = Ok d /\
                          r = Some d).
  { intros r Hr. unfold FindLinkedIFD in Hr. rewrite Hels in Hr.
    rewrite findLinked_skip in Hr by exact Hpre.
    cbn [findLinked] in Hr.
    replace (Tag e =? tag) with true in Hr by (symmetry; apply Z.eqb_eq; exact He).
    apply bind_Ok_inv in Hr. destruct Hr as (o & Ho & Hr).
    apply bind_Ok_inv in Hr. destruct Hr as (s & Hs & Hr).
    apply bind_Ok_inv in Hr. destruct Hr as (dd & Hd & Hr).
    injection Hr as <-.
    apply sliceFrom_inv in Hs. destruct Hs as (Ro & -> & _).
    exists o, dd. repeat split; try assumption. lia. }
  destruct Htag as [-> | [-> | ->]].
  - destruct (F _ E1) as (o & dd & Ho & Lo & Hd & ->).
    exists o, dd. repeat split; try assumption; intros; try reflexivity; lia.
  - destruct (F _ E2) as (o & dd & Ho & Lo & Hd & ->).
    exists o, dd. repeat split; try assumption; intros; try reflexivity; lia.
  - destruct (F _ E3) as (o & dd & Ho & Lo & Hd & ->).
    exists o, dd. repeat split; try assumption; intros; try reflexivity; lia.
Qed.

Lemma pointer_tag_sets_field_witness :
  exists o d,
    ElementUint32 (exifAt 38) (Endian docTwoExif) = Ok o /\
    o <= len tiffTwoExif /\
    parseIFD (skipn (Z.to_nat o) tiffTwoExif) (Endian docTwoExif) = Ok d /\
    (34665 = 34665 -> ExifIFD docTwoExif = Some d) /\
    (34665 = 34853 -> GPSIFD docTwoExif = Some d) /\
    (34665 = 40965 -> InteroperabilityIFD docTwoExif = Some d).
Proof.
  apply (pointer_tag_sets_field tiffTwoExif docTwoExif
           (mkIFD [exifAt 38; exifAt 44] []) [] [exifAt 44] (exifAt 38) 34665).
  - vm_compute. reflexivity.
  - reflexivity.
  - reflexivity.
  - intros x [].
  - reflexivity.
  - left. reflexivity.
Defined.

(** ** Writing: [writeBytes], [writeJPEGHeader] *)

(** X13.  On any writer, [writeJPEGHeader] makes one [Write], of the two
    bytes [FF D8]; it leaves the writer as that call left it, and returns
    no error exactly when the call reported no error and a count of 2. *)
Theorem writeJPEGHeader_one_write (W E : Type)
    (Write : W -> list byte -> W * Z * option E) (w : W) :
  fst (writeJPEGHeader Write w) = fst (fst (Write w [xff; xd8])) /\
  (snd (writeJPEGHeader Write w) = None <->
   snd (Write w [xff; xd8]) = None /\ snd (fst (Write w [xff; xd8])) = 2).
Proof.
  unfold writeJPEGHeader, writeBytes, soiMarker.
  destruct (Write w [xff; xd8]) as [[w' n] err]. cbn [fst snd].
  destruct err as [e |].
  - split; [reflexivity |]. split; [discriminate | intros [H _]; discriminate].
  - change (len [xff; xd8]) with 2.
    destruct (n =? 2) eqn:En; cbn [negb fst snd].
    + apply Z.eqb_eq in En. split; [reflexivity |]. split; auto.
    + apply Z.eqb_neq in En. split; [reflexivity |].
      split; [discriminate | intros [_ H]; contradiction].
Qed.

(** X14.  What [writeJPEGHeader] writes to an empty file is what
    [parseJPEGHeader] accepts as the start of the image: followed by any
    bytes [s], parsing goes on with the APP1 segment in [s]; and a file
    whose first two bytes differ is rejected with "SOI not found". *)
Theorem writeJPEGHeader_then_parseJPEGHeader (s : list byte) :
  exists out,
    writeJPEGHeader fileWrite [] = (out, None) /\
    parseJPEGHeader (out ++ s)
    = (y <- wrap CouldNotParseAPP1 (parseAPP1 s) ;;
       let '(app1, r) := y in Ok (mkJPEGHeader (Some app1), r)) /\
    (forall x y t, [x; y] <> out ->
                   parseJPEGHeader (x :: y :: t) = Err SOINotFound).
Proof.
  exists soiMarker. split; [reflexivity |]. split.
  - unfold parseJPEGHeader.
    change 2 with (len soiMarker). rewrite readBytes_app. reflexivity.
  - intros x y t Hne. unfold parseJPEGHeader.
    change 2 with (len [x; y]).
    change (x :: y :: t) with ([x; y] ++ t).
    rewrite readBytes_app. cbn [bind].
    destruct (bytesEqual [x; y] soiMarker) eqn:E; [| reflexivity].
    apply bytesEqual_eq in E. contradiction.
Qed.

(** ** The first revision *)

Lemma rev1_parseIFDElement_eq (data : list byte) (endian : ByteOrder) :
  len data = 12 ->
  Rev1.parseIFDElement data endian
  = (e0 <- newIFDElement data endian ;; Ok (toRev1Element endian e0)).
Proof.
  unfold len. intros H.
  do 12 (destruct data as [| ? data]; [simpl in H; lia |]).
  destruct data; [| simpl in H; lia].
  unfold Rev1.parseIFDElement, newIFDElement, toRev1Element, ElementUint32.
  cbv -[Uint16 Uint32].
  destruct (Uint16 endian [b; b0]); try reflexivity.
  destruct (Uint16 endian [b1; b2]); try reflexivity.
  destruct (Uint32 endian [b3; b4; b5; b6]); try reflexivity.
  destruct (Uint32_total endian [b7; b8; b9; b10]) as [o Ho];
    [unfold len; simpl; lia |].
  rewrite Ho. reflexivity.
Qed.

Lemma toRev1Element_fields (endian : ByteOrder) (e e0 : IFDElement) :
  Tag e = Tag e0 -> Type_ e = Type_ e0 -> Count e = Count e0 ->
  rawValue e = rawValue e0 ->
  toRev1Element endian e = toRev1Element endian e0.
Proof.
  intros H1 H2 H3 H4. unfold toRev1Element, ElementUint32.
  rewrite H1, H2, H3, H4. reflexivity.
Qed.

Lemma rev1_parseIFDElement_refines (s ifd : list byte) (endian : ByteOrder)
    (e : IFDElement) :
  parseIFDElement s ifd endian = Ok e ->
  Rev1.parseIFDElement s endian = Ok (toRev1Element endian e).
Proof.
  intros H. apply parseIFDElement_Ok_inv in H.
  destruct H as (e0 & L & He0 & T & Ty & C & R & _).
  rewrite (rev1_parseIFDElement_eq _ _ L), He0. cbn [bind].
  f_equal. symmetry. apply toRev1Element_fields; assumption.
Qed.

(** X15.  The first revision's [parseIFDElement] returns an element for
    every 12-byte slot, whatever the entry says and whatever follows: the
    fields of the slot and the 4-byte field read as a uint32; it neither
    fails nor panics. *)
Theorem rev1_parseIFDElement_total (data : list byte) (endian : ByteOrder) :
  len data = 12 ->
  exists e0 offset,
    newIFDElement data endian = Ok e0 /\
    Uint32 endian (firstn 4 (skipn 8 data)) = Ok offset /\
    Rev1.parseIFDElement data endian
    = Ok (Rev1.mkIFDElement (Tag e0) (Type_ e0) (Count e0) offset
            (firstn 4 (skipn 8 data))).
Proof.
  intros H. destruct (newIFDElement_total data endian H) as (e0 & He0 & R & _).
  destruct (ElementUint32_total e0 endian) as (o & Ho & _).
  { rewrite R. unfold len in *. rewrite length_firstn, length_skipn. lia. }
  exists e0, o. split; [exact He0 |].
  unfold ElementUint32 in Ho. rewrite R in Ho. split; [exact Ho |].
  rewrite (rev1_parseIFDElement_eq _ _ H), He0. cbn [bind].
  unfold toRev1Element, ElementUint32. rewrite R, Ho. reflexivity.
Qed.

Lemma rev1_parseIFDElement_total_witness :
  exists e0 offset,
    newIFDElement slotLong2 LittleEndian = Ok e0 /\
    Uint32 LittleEndian (firstn 4 (skipn 8 slotLong2)) = Ok offset /\
    Rev1.parseIFDElement slotLong2 LittleEndian
    = Ok (Rev1.mkIFDElement (Tag e0) (Type_ e0) (Count e0) offset
            (firstn 4 (skipn 8 slotLong2))).
Proof. apply (rev1_parseIFDElement_total slotLong2 LittleEndian). reflexivity. Defined.

Lemma rev1_parseElements_refines (b : list byte) (endian : ByteOrder) (n : nat) :
  forall i l, parseElements b endian n i = Ok l ->
    Rev1.parseElements b endian n i = Ok (map (toRev1Element endian) l).
Proof.
  induction n as [| n IH]; intros i l H.
  - injection H as <-. reflexivity.
  - cbn [parseElements Rev1.parseElements] in *.
    apply bind_Ok_inv in H. destruct H as (s & Hs & H). rewrite Hs. cbn [bind].
    destruct (parseIFDElement s b endian) as [e | |] eqn:Ee; try discriminate.
    rewrite (rev1_parseIFDElement_refines _ _ _ _ Ee).
    apply bind_Ok_inv in H. destruct H as (rest & Hr & H).
    rewrite (IH _ _ Hr). cbn [bind]. injection H as <-. reflexivity.
Qed.

Lemma rev1_parseIFD_refines (b : list byte) (endian : ByteOrder) (d : IFD) :
  parseIFD b endian = Ok d ->
  Rev1.parseIFD b endian = Ok (toRev1IFD endian d).
Proof.
  unfold parseIFD, Rev1.parseIFD. intros H.
  apply bind_Ok_inv in H. destruct H as (ec & Hec & H). rewrite Hec. cbn [bind].
  apply bind_Ok_inv in H. destruct H as (v & Hv & H). rewrite Hv. cbn [bind].
  apply bind_Ok_inv in H. destruct H as (raw & Hraw & H). rewrite Hraw. cbn [bind].
  apply bind_Ok_inv in H. destruct H as (els & Hels & H).
  rewrite (rev1_parseElements_refines _ _ _ _ _ Hels). cbn [bind].
  injection H as <-. reflexivity.
Qed.

Lemma rev1_findLinked_refines (els : list IFDElement) (tag : Z)
    (b : list byte) (endian : ByteOrder) (r : option IFD) :
  findLinked els tag b endian = Ok r ->
  Rev1.findLinked (map (toRev1Element endian) els) tag b endian
  = Ok (option_map (toRev1IFD endian) r).
Proof.
  induction els as [| e els IH]; intros H.
  - injection H as <-. reflexivity.
  - cbn [findLinked map Rev1.findLinked] in *.
    change (Rev1.Tag (toRev1Element endian e)) with (Tag e).
    destruct (Tag e =? tag); [| exact (IH H)].
    apply bind_Ok_inv in H. destruct H as (o & Ho & H).
    apply bind_Ok_inv in H. destruct H as (s & Hs & H).
    apply bind_Ok_inv in H. destruct H as (d & Hd & H).
    injection H as <-.
    unfold toRev1Element at 1. cbn [Rev1.ValueOffset]. rewrite Ho, Hs.
    cbn [bind]. rewrite (rev1_parseIFD_refines _ _ _ Hd). reflexivity.
Qed.

Lemma rev1_parseTIFF_refines (b : list byte) (a : APP1) :
  parseTIFF b = Ok a -> Rev1.parseTIFF b = Ok (toRev1 a).
Proof.
  intros H. apply parseTIFF_Ok_inv in H.
  destruct H as (endian & off & pre & s3 & d0 & Hh & Hpre & Hs3 & Hd0 & H).
  apply parseLinkedIFDs_Ok_inv in H.
  destruct H as (exif & gps & io & s4 & d1 & E1 & E2 & E3 & Hs4 & Hd1 & ->).
  unfold Rev1.parseTIFF. rewrite Hh. cbn [bind].
  rewrite Hpre, Hs3. cbn [bind].
  rewrite (rev1_parseIFD_refines _ _ _ Hd0). cbn [bind wrap].
  unfold FindLinkedIFD in *. unfold Rev1.FindLinkedIFD.
  cbn [Rev1.Elements Rev1.rawValues toRev1IFD].
  rewrite (rev1_findLinked_refines _ _ _ _ _ E1). cbn [bind wrap].
  rewrite (rev1_findLinked_refines _ _ _ _ _ E2). cbn [bind wrap].
  rewrite (rev1_findLinked_refines _ _ _ _ _ E3). cbn [bind wrap].
  rewrite Hs4. cbn [bind].
  rewrite (rev1_parseIFD_refines _ _ _ Hd1). reflexivity.
Qed.

Lemma rev1_readBytes_Ok_iff (r : Reader) (n : Z) (x : list byte * Reader) :
  Rev1.readBytes r n = Rev1.FOk x <-> readBytes r n = Ok x.
Proof.
  unfold Rev1.readBytes, readBytes.
  destruct (n <? 0); [split; discriminate |].
  destruct (n =? 0); [split; intros H; injection H as <-; reflexivity |].
  destruct (len r =? 0); [split; discriminate |].
  destruct (len r <? n); [split; discriminate |].
  split; intros H; injection H as <-; reflexivity.
Qed.

Lemma rev1_readBytes_app (b r' : list byte) :
  Rev1.readBytes (b ++ r') (len b) = Rev1.FOk (b, r').
Proof. apply rev1_readBytes_Ok_iff. apply readBytes_app. Qed.

Lemma rev1_readTIFFPayload_prefix (hi lo : byte) (rest : list byte) :
  Rev1.readTIFFPayload (app1marker ++ [hi; lo] ++ exifMarker ++ rest)
  = Rev1.readBytes rest (uint16 (256 * byteval hi + byteval lo - 10)).
Proof.
  unfold Rev1.readTIFFPayload.
  change (app1marker ++ [hi; lo] ++ exifMarker ++ rest)
    with ((app1marker ++ [hi; lo] ++ exifMarker) ++ rest).
  change 10 with (len (app1marker ++ [hi; lo] ++ exifMarker)) at 1.
  rewrite rev1_readBytes_app. cbn [Rev1.fbind].
  replace (slice (app1marker ++ [hi; lo] ++ exifMarker) 0 2)
    with (Ok app1marker) by reflexivity.
  replace (slice (app1marker ++ [hi; lo] ++ exifMarker) 4 10)
    with (Ok exifMarker) by reflexivity.
  replace (slice (app1marker ++ [hi; lo] ++ exifMarker) 2 4)
    with (Ok [hi; lo]) by reflexivity.
  cbn [Rev1.lift Rev1.fbind].
  replace (bytesEqual app1marker app1marker) with true by reflexivity.
  replace (bytesEqual exifMarker exifMarker) with true by reflexivity.
  cbn [negb]. unfold BigEndianUint16. rewrite Uint16_BigEndian_value.
  cbn [Rev1.lift Rev1.fbind]. unfold sub16.
  rewrite int_small; [reflexivity |].
  pose proof (uint16_range (256 * byteval hi + byteval lo - 10)). lia.
Qed.

Lemma rev1_readTIFFPayload_Ok_shape (r : Reader) (x : list byte * Reader) :
  Rev1.readTIFFPayload r = Rev1.FOk x ->
  exists hi lo rest, r = app1marker ++ [hi; lo] ++ exifMarker ++ rest.
Proof.
  unfold Rev1.readTIFFPayload. intros H.
  destruct (Rev1.readBytes r 10) as [[data r1] | |] eqn:E;
    cbn [Rev1.fbind] in H; try discriminate.
  apply rev1_readBytes_Ok_iff, readBytes_split in E. destruct E as [-> L].
  unfold len in L.
  do 10 (destruct data as [| ? data]; [simpl in L; lia |]).
  destruct data; [| simpl in L; lia].
  replace (slice [b; b0; b1; b2; b3; b4; b5; b6; b7; b8] 0 2)
    with (Ok [b; b0]) in H by reflexivity.
  replace (slice [b; b0; b1; b2; b3; b4; b5; b6; b7; b8] 4 10)
    with (Ok [b3; b4; b5; b6; b7; b8]) in H by reflexivity.
  cbn [Rev1.lift Rev1.fbind] in H.
  destruct (bytesEqual [b; b0] app1marker) eqn:Em; cbn [negb] in H;
    [| discriminate].
  destruct (bytesEqual [b3; b4; b5; b6; b7; b8] exifMarker) eqn:Ee;
    cbn [negb] in H; [| discriminate].
  apply bytesEqual_eq in Em, Ee. unfold app1marker in Em. unfold exifMarker in Ee.
  injection Em as -> ->. injection Ee as -> -> -> -> -> ->.
  exists b1, b2, r1. reflexivity.
Qed.

Lemma rev1_readTIFFPayload_agrees_helper (r : Reader)
    (x : list byte * Reader) :
  readTIFFPayload r = Ok x -> Rev1.readTIFFPayload r = Rev1.FOk x.
Proof.
  intros H. destruct x as [p r'].
  destruct (readTIFFPayload_Ok_inv _ _ _ H) as (lb & L & -> & Hlb & _ & _).
  destruct lb as [| hi [| lo [| ? ?]]];
    try (unfold len in Hlb; simpl in Hlb; lia).
  rewrite readTIFFPayload_after_prefix in H.
  rewrite rev1_readTIFFPayload_prefix.
  apply rev1_readBytes_Ok_iff. exact H.
Qed.

(** X16.  Both revisions read the same payload: the first revision, which
    reads the 10 bytes of the APP1 header at once, delivers a payload and
    leaves the reader in a state exactly when the second revision, which
    reads marker, length and identifier one after the other, delivers that
    payload and leaves the reader in that state. *)
Theorem rev1_readTIFFPayload_agrees (r : Reader) (x : list byte * Reader) :
  Rev1.readTIFFPayload r = Rev1.FOk x <-> readTIFFPayload r = Ok x.
Proof.
  split; intros H.
  - destruct (rev1_readTIFFPayload_Ok_shape _ _ H) as (hi & lo & rest & ->).
    rewrite rev1_readTIFFPayload_prefix in H.
    rewrite readTIFFPayload_after_prefix.
    apply rev1_readBytes_Ok_iff. exact H.
  - apply rev1_readTIFFPayload_agrees_helper. exact H.
Qed.

Lemma rev1_readTIFFPayload_agrees_witness :
  Rev1.readTIFFPayload (skipn 2 jpegMinimal)
  = Rev1.FOk (firstn 12 tiffEmpty, skipn 12 tiffEmpty).
Proof.
  apply (proj2 (rev1_readTIFFPayload_agrees (skipn 2 jpegMinimal)
                  (firstn 12 tiffEmpty, skipn 12 tiffEmpty))).
  vm_compute. reflexivity.
Defined.

(** X17.  The second revision refines the first: whenever the second
    revision's [parseTIFF] returns a document for a buffer, the first
    revision's [parseTIFF] returns the same document without the resolved
    values (same byte order, pre-IFD region, directories, elements in the
    same order, raw fields and values regions); and whenever the second
    revision's [parse] accepts a file, so does the first, with that
    document and the same bytes left unread. *)
Theorem rev1_refined (r : Reader) (h : JPEGHeader) (r' : Reader) :
  parse r = Ok (h, r') ->
  Rev1.parse r = Rev1.FOk (toRev1Header h, r') /\
  (forall b a, parseTIFF b = Ok a -> Rev1.parseTIFF b = Ok (toRev1 a)).
Proof.
  intros H. split; [| exact rev1_parseTIFF_refines].
  unfold parse in H. apply wrap_Ok_inv in H. unfold parseJPEGHeader in H.
  apply bind_Ok_inv in H. destruct H as ([b0 r0] & H0 & H).
  destruct (bytesEqual b0 soiMarker) eqn:E0; [| discriminate]. cbn [negb] in H.
  apply bytesEqual_eq in E0. subst b0.
  apply bind_Ok_inv in H. destruct H as ([a r1] & H1 & H).
  apply wrap_Ok_inv in H1. injection H as <- <-.
  unfold parseAPP1 in H1.
  apply bind_Ok_inv in H1. destruct H1 as ([p r2] & Hp & H1).
  apply bind_Ok_inv in H1. destruct H1 as (a' & Ha & H1).
  apply wrap_Ok_inv in Ha. injection H1 as -> ->.
  unfold Rev1.parse, Rev1.parseJPEGHeader.
  apply rev1_readBytes_Ok_iff in H0. rewrite H0. cbn [Rev1.fbind].
  replace (slice soiMarker 0 2) with (Ok soiMarker) by reflexivity.
  cbn [Rev1.lift Rev1.fbind].
  replace (bytesEqual soiMarker [xff; xd8]) with true by reflexivity.
  cbn [negb]. unfold Rev1.parseAPP1Segment.
  apply rev1_readTIFFPayload_agrees_helper in Hp. rewrite Hp. cbn [Rev1.fbind].
  rewrite (rev1_parseTIFF_refines _ _ Ha). reflexivity.
Qed.

Lemma rev1_refined_witness :
  Rev1.parse (bytesOf [0xff; 0xd8; 0xff; 0xe1; 0; 24; 0x45; 0x78; 0x69; 0x66; 0; 0]
              ++ tiffEmpty)
  = Rev1.FOk (toRev1Header
                (mkJPEGHeader (Some (mkAPP1 LittleEndian [] (Some (mkIFD [] []))
                                       None None None (Some (mkIFD [] []))))),
              []) /\
  (forall b a, parseTIFF b = Ok a -> Rev1.parseTIFF b = Ok (toRev1 a)).
Proof.
  apply (rev1_refined
           (bytesOf [0xff; 0xd8; 0xff; 0xe1; 0; 24; 0x45; 0x78; 0x69; 0x66; 0; 0]
            ++ tiffEmpty)).
  vm_compute. reflexivity.
Defined.

Lemma rev1_parseElements_Ok (b : list byte) (endian : ByteOrder) (n : nat) :
  forall i, 0 <= i -> i + Z.of_nat n <= 2 ^ 16 ->
            2 + 12 * (i + Z.of_nat n) <= len b ->
            exists l, Rev1.parseElements b endian n i = Ok l.
Proof.
  induction n as [| n IH]; intros i Hi Hn Hb.
  - exists []. reflexivity.
  - cbn [Rev1.parseElements].
    destruct (loop_offset i ltac:(lia)) as [O1 O2]. rewrite O2, O1.
    rewrite slice_Ok by lia. cbn [bind].
    assert (L : len (firstn (Z.to_nat (2 + 12 * i + 12 - (2 + 12 * i)))
                            (skipn (Z.to_nat (2 + 12 * i)) b)) = 12)
      by (unfold len in *; rewrite length_firstn, length_skipn; lia).
    rewrite (rev1_parseIFDElement_eq _ endian L).
    destruct (newIFDElement_total _ endian L) as (e0 & -> & _). cbn [bind].
    destruct (IH (i + 1) ltac:(lia) ltac:(lia) ltac:(lia)) as [l ->].
    cbn [bind]. eexists. reflexivity.
Qed.

Lemma rev1_parseElements_not_Ok (b : list byte) (endian : ByteOrder) (n : nat) :
  forall i l, 0 <= i -> (0 < n)%nat -> i + Z.of_nat n <= 2 ^ 16 ->
              len b < 2 + 12 * (i + Z.of_nat n) ->
              Rev1.parseElements b endian n i <> Ok l.
Proof.
  induction n as [| n IH]; intros i l Hi Hpos Hn Hb; [lia |].
  cbn [Rev1.parseElements].
  destruct (loop_offset i ltac:(lia)) as [O1 O2]. rewrite O2, O1.
  destruct (slice b (2 + 12 * i) (2 + 12 * i + 12)) as [s | e | ] eqn:Es;
    cbn [bind]; try discriminate.
  apply slice_inv in Es. destruct Es as (_ & _ & Hhi & _ & L).
  destruct (Rev1.parseIFDElement s endian) as [x | e |]; try discriminate.
  destruct n as [| n'].
  - exfalso. lia.
  - destruct (Rev1.parseElements b endian (S n') (i + 1)) as [l' | e |] eqn:Er;
      cbn [bind]; try discriminate.
    exfalso. apply (IH (i + 1) l'); [lia | lia | lia | lia | exact Er].
Qed.

(** X18.  On a buffer of at most 65535 bytes the first revision's
    [parseIFD] returns a directory exactly when the directory fits: the
    entry count can be read and is at most 5460, and the count, the
    entries, the trailer and the values region of the length given by the
    trailer lie within the buffer. *)
Theorem rev1_parseIFD_Ok_iff (b : list byte) (endian : ByteOrder) :
  len b <= 65535 ->
  ((exists d, Rev1.parseIFD b endian = Ok d) <->
   (exists ec v, readElementCount b endian = Ok ec /\
                 ec <= 5460 /\
                 readValuesLength b endian ec = Ok v /\
                 2 + 12 * ec + 4 + v <= len b)).
Proof.
  intros Hlen. split.
  - intros [d H]. unfold Rev1.parseIFD in H.
    apply bind_Ok_inv in H. destruct H as (ec & Hec & H).
    apply bind_Ok_inv in H. destruct H as (v & Hv & H).
    apply bind_Ok_inv in H. destruct H as (raw & Hraw & H).
    apply bind_Ok_inv in H. destruct H as (els & Hels & _).
    pose proof (readElementCount_inv _ _ _ Hec) as [_ Rec].
    pose proof (readValuesLength_inv _ _ _ _ Hv) as [Rv Ht].
    rewrite int_small in Hels by lia.
    assert (Hsmall : ec <= 5460).
    { destruct (Z_lt_le_dec ec 5461) as [L | L]; [lia |]. exfalso.
      destruct (Z_lt_le_dec ec 5462) as [L2 | L2].
      - assert (ec = 5461) by lia. subst ec.
        vm_compute in Ht. destruct Ht as [Ht _]. apply Ht. reflexivity.
      - apply (rev1_parseElements_not_Ok b endian (Z.to_nat ec) 0 els);
          [lia | lia | lia | lia | exact Hels]. }
    exists ec, v. repeat split; try assumption.
    assert (E : trailerEnd ec = 2 + 12 * ec + 4)
      by (rewrite trailerEnd_mod; apply Z.mod_small; lia).
    rewrite E in Hraw. rewrite (int_small (2 + 12 * ec + 4)) in Hraw by lia.
    unfold addint in Hraw. rewrite int_small in Hraw by lia.
    apply slice_inv in Hraw. lia.
  - intros (ec & v & Hec & Hsmall & Hv & Hfit).
    pose proof (readElementCount_inv _ _ _ Hec) as [_ Rec].
    pose proof (readValuesLength_inv _ _ _ _ Hv) as [Rv _].
    unfold Rev1.parseIFD. rewrite Hec. cbn [bind]. rewrite Hv. cbn [bind].
    assert (E : trailerEnd ec = 2 + 12 * ec + 4)
      by (rewrite trailerEnd_mod; apply Z.mod_small; lia).
    rewrite E. rewrite (int_small (2 + 12 * ec + 4)) by lia.
    unfold addint. rewrite (int_small (2 + 12 * ec + 4 + v)) by lia.
    rewrite slice_Ok by lia. cbn [bind].
    rewrite int_small by lia.
    destruct (rev1_parseElements_Ok b endian (Z.to_nat ec) 0) as [l ->];
      [lia | lia | lia |].
    cbn [bind]. eexists. reflexivity.
Qed.

Lemma rev1_parseIFD_Ok_iff_witness :
  (exists d, Rev1.parseIFD (skipn 8 tiffTrailer14) LittleEndian = Ok d) <->
  (exists ec v, readElementCount (skipn 8 tiffTrailer14) LittleEndian = Ok ec /\
                ec <= 5460 /\
                readValuesLength (skipn 8 tiffTrailer14) LittleEndian ec = Ok v /\
                2 + 12 * ec + 4 + v <= len (skipn 8 tiffTrailer14)).
Proof.
  apply (rev1_parseIFD_Ok_iff (skipn 8 tiffTrailer14) LittleEndian).
  vm_compute. discriminate.
Defined.

(** ** Where a panic can come from *)

Lemma readBytes_not_Panic (r : Reader) (n : Z) :
  0 <= n -> readBytes r n <> Panic.
Proof.
  intros H. unfold readBytes.
  replace (n <? 0) with false by (symmetry; apply Z.ltb_ge; exact H).
  destruct (n =? 0); [discriminate |].
  destruct (len r =? 0); [discriminate |].
  destruct (len r <? n); discriminate.
Qed.

Lemma readTIFFPayload_not_Panic (r : Reader) : readTIFFPayload r <> Panic.
Proof.
  unfold readTIFFPayload.
  destruct (readBytes r 2) as [[b0 r0] | |] eqn:E0; cbn [bind];
    [| discriminate | exfalso; revert E0; apply readBytes_not_Panic; lia].
  destruct (negb (bytesEqual b0 app1marker)); [discriminate |].
  destruct (readBytes r0 2) as [[b1 r1] | |] eqn:E1; cbn [bind];
    [| discriminate | exfalso; revert E1; apply readBytes_not_Panic; lia].
  apply readBytes_split in E1. destruct E1 as [_ L1].
  destruct (Uint16_total BigEndian b1) as [L HL]; [lia |].
  unfold BigEndianUint16. rewrite HL. cbn [bind].
  destruct (readBytes r1 6) as [[b2 r2] | |] eqn:E2; cbn [bind];
    [| discriminate | exfalso; revert E2; apply readBytes_not_Panic; lia].
  destruct (negb (bytesEqual b2 exifMarker)); [discriminate |].
  apply readBytes_not_Panic. unfold sub16.
  pose proof (uint16_range (L - 10)). rewrite int_small; lia.
Qed.

(** X19.  Reading never panics: when [parse] panics, the file starts with
    the SOI marker, the APP1 header was read and a payload of at most 65535
    bytes was delivered, and it is [parseTIFF] that panics on that
    payload. *)
Theorem parse_Panic_from_parseTIFF (r : Reader) :
  parse r = Panic ->
  exists payload r',
    firstn 2 r = soiMarker /\
    readTIFFPayload (skipn 2 r) = Ok (payload, r') /\
    len payload <= 65535 /\
    parseTIFF payload = Panic.
Proof.
  unfold parse. intros H.
  destruct (parseJPEGHeader r) as [x | e |] eqn:E; try discriminate. clear H.
  unfold parseJPEGHeader in E.
  destruct (readBytes r 2) as [[b0 r0] | |] eqn:E0; cbn [bind] in E;
    [| discriminate | exfalso; revert E0; apply readBytes_not_Panic; lia].
  destruct (bytesEqual b0 soiMarker) eqn:Es; cbn [negb] in E; [| discriminate].
  apply bytesEqual_eq in Es. subst b0.
  apply readBytes_inv in E0. destruct E0 as (F & -> & _).
  destruct (parseAPP1 (skipn (Z.to_nat 2) r)) as [[a r1] | e |] eqn:Ea;
    cbn [bind wrap] in E; try discriminate.
  unfold parseAPP1 in Ea.
  destruct (readTIFFPayload (skipn (Z.to_nat 2) r)) as [[p r2] | e |] eqn:Ep;
    cbn [bind] in Ea;
    [| discriminate | exfalso; revert Ep; apply readTIFFPayload_not_Panic].
  destruct (parseTIFF p) as [a | e |] eqn:Et; cbn [bind wrap] in Ea;
    try discriminate.
  exists p, r2. split; [symmetry; exact F |]. split; [exact Ep |].
  split; [| exact Et].
  apply readTIFFPayload_length in Ep. destruct Ep as (L & _ & ->).
  pose proof (uint16_range (L - 10)). lia.
Qed.

Lemma parse_Panic_from_parseTIFF_witness :
  exists payload r',
    firstn 2 jpegMinimal = soiMarker /\
    readTIFFPayload (skipn 2 jpegMinimal) = Ok (payload, r') /\
    len payload <= 65535 /\
    parseTIFF payload = Panic.
Proof.
  apply (parse_Panic_from_parseTIFF jpegMinimal).
  vm_compute. reflexivity.
Defined.

(** ** When a directory is decoded *)

Lemma parseIFDElement_Ok_when_fits (s ifd : list byte) (endian : ByteOrder)
    (e0 : IFDElement) :
  len s = 12 -> newIFDElement s endian = Ok e0 -> valueFits ifd endian e0 ->
  exists e, parseIFDElement s ifd endian = Ok e.
Proof.
  intros L He0 Hfit. unfold parseIFDElement.
  replace (len s =? 12) with true by (symmetry; apply Z.eqb_eq; exact L).
  cbn [negb]. rewrite He0. cbn [bind].
  destruct (Length e0 >? 4) eqn:EL; [| eexists; reflexivity].
  rewrite Z.gtb_ltb in EL. apply Z.ltb_lt in EL.
  destruct (newIFDElement_inv _ _ _ L He0) as (_ & _ & L4 & _).
  destruct (ElementUint32_total e0 endian L4) as (o & Ho & Ro).
  rewrite Ho. cbn [bind].
  destruct (Hfit EL o Ho) as [F1 F2].
  pose proof (uint32_range (Length e0)) as Rl.
  unfold add32. rewrite (uint32_small (o + uint32 (Length e0))) by lia.
  rewrite slice_Ok by lia. cbn [bind]. eexists. reflexivity.
Qed.

Lemma parseIFDElement_fits_when_Ok (s ifd : list byte) (endian : ByteOrder)
    (e : IFDElement) (e0 : IFDElement) :
  parseIFDElement s ifd endian = Ok e -> newIFDElement s endian = Ok e0 ->
  valueFits ifd endian e0.
Proof.
  intros H He0. apply parseIFDElement_Ok_inv in H.
  destruct H as (e0' & _ & He0' & T & Ty & C & R & V).
  rewrite He0 in He0'. injection He0' as <-.
  assert (EL : Length e = Length e0) by (unfold Length; rewrite Ty, C; reflexivity).
  intros HL o Ho.
  destruct V as [[HL' _] | (_ & o' & Ho' & Hs)]; [lia |].
  unfold ElementUint32 in *. rewrite R, Ho in Ho'. injection Ho' as <-.
  rewrite EL in Hs. pose proof (Uint32_range _ _ _ Ho) as Ro.
  apply indirect_slice_length in Hs; [tauto | exact Ro | apply uint32_range].
Qed.

Lemma slice_slotAt (b : list byte) (k : Z) :
  0 <= k -> 2 + 12 * k + 12 <= len b ->
  slice b (2 + 12 * k) (2 + 12 * k + 12) = Ok (slotAt b k) /\
  len (slotAt b k) = 12.
Proof.
  intros Hk Hb. rewrite slice_Ok by lia. unfold slotAt.
  replace (Z.to_nat (2 + 12 * k + 12 - (2 + 12 * k))) with 12%nat by lia.
  split; [reflexivity |].
  unfold len in *. rewrite length_firstn, length_skipn. lia.
Qed.

Lemma parseElements_Ok_when_fits (b : list byte) (endian : ByteOrder) (n : nat) :
  forall i, 0 <= i -> i + Z.of_nat n <= 2 ^ 16 ->
    2 + 12 * (i + Z.of_nat n) <= len b ->
    (forall k e0, i <= k < i + Z.of_nat n ->
                  newIFDElement (slotAt b k) endian = Ok e0 ->
                  valueFits b endian e0) ->
    exists l, parseElements b endian n i = Ok l.
Proof.
  induction n as [| n IH]; intros i Hi Hn Hb Hfit.
  - exists []. reflexivity.
  - cbn [parseElements].
    destruct (loop_offset i ltac:(lia)) as [O1 O2]. rewrite O2, O1.
    destruct (slice_slotAt b i ltac:(lia) ltac:(lia)) as [-> L]. cbn [bind].
    destruct (newIFDElement_total _ endian L) as (e0 & He0 & _).
    destruct (parseIFDElement_Ok_when_fits _ b endian e0 L He0) as [e ->].
    { apply (Hfit i e0); [lia | exact He0]. }
    destruct (IH (i + 1) ltac:(lia) ltac:(lia) ltac:(lia)) as [l ->].
    { intros k e1 Hk. apply Hfit. lia. }
    cbn [bind]. eexists. reflexivity.
Qed.

(** X20.  On a buffer of at most 65535 bytes [parseIFD] returns a directory
    exactly when the directory fits (the entry count can be read and is at
    most 5460; count, entries, trailer and the values region of the length
    given by the trailer lie within the buffer) and, for every entry whose
    computed length exceeds 4, the range of [length mod 2^32] bytes at the
    offset in its raw field lies within the buffer. *)
Theorem parseIFD_Ok_iff (b : list byte) (endian : ByteOrder) :
  len b <= 65535 ->
  ((exists d, parseIFD b endian = Ok d) <->
   (exists ec v,
      readElementCount b endian = Ok ec /\
      ec <= 5460 /\
      readValuesLength b endian ec = Ok v /\
      2 + 12 * ec + 4 + v <= len b /\
      forall k e0, 0 <= k < ec ->
                   newIFDElement (slotAt b k) endian = Ok e0 ->
                   valueFits b endian e0)).
Proof.
  intros Hlen. split.
  - intros [d H]. unfold parseIFD in H.
    apply bind_Ok_inv in H. destruct H as (ec & Hec & H).
    apply bind_Ok_inv in H. destruct H as (v & Hv & H).
    apply bind_Ok_inv in H. destruct H as (raw & Hraw & H).
    apply bind_Ok_inv in H. destruct H as (els & Hels & _).
    pose proof (readElementCount_inv _ _ _ Hec) as [_ Rec].
    pose proof (readValuesLength_inv _ _ _ _ Hv) as [Rv Ht].
    rewrite int_small in Hels by lia.
    assert (Hsmall : ec <= 5460).
    { destruct (Z_lt_le_dec ec 5461) as [L | L]; [lia |]. exfalso.
      destruct (Z_lt_le_dec ec 5462) as [L2 | L2].
      - assert (ec = 5461) by lia. subst ec.
        vm_compute in Ht. destruct Ht as [Ht _]. apply Ht. reflexivity.
      - apply (parseElements_not_Ok b endian (Z.to_nat ec) 0 els);
          [lia | lia | lia | lia | exact Hels]. }
    exists ec, v.
    split; [exact Hec |]. split; [exact Hsmall |]. split; [exact Hv |]. split.
    + assert (E : trailerEnd ec = 2 + 12 * ec + 4)
        by (rewrite trailerEnd_mod; apply Z.mod_small; lia).
      rewrite E in Hraw. rewrite (int_small (2 + 12 * ec + 4)) in Hraw by lia.
      unfold addint in Hraw. rewrite int_small in Hraw by lia.
      apply slice_inv in Hraw. lia.
    + intros k e0 Hk He0.
      pose proof (parseElements_length _ _ _ _ _ Hels) as Hl.
      destruct (nth_error els (Z.to_nat k)) as [e |] eqn:En.
      * destruct (parseElements_nth _ _ _ _ _ Hels ltac:(lia) ltac:(lia)
                    (Z.to_nat k) e En) as (s & Hs & He).
        replace (0 + Z.of_nat (Z.to_nat k)) with k in Hs by lia.
        apply slice_inv in Hs. destruct Hs as (_ & _ & Hhi & Es & _).
        assert (Ek : s = slotAt b k)
          by (rewrite Es; unfold slotAt; f_equal; lia).
        rewrite Ek in He.
        eapply parseIFDElement_fits_when_Ok; eassumption.
      * apply nth_error_None in En. lia.
  - intros (ec & v & Hec & Hsmall & Hv & Hfit & Hvals).
    pose proof (readElementCount_inv _ _ _ Hec) as [_ Rec].
    pose proof (readValuesLength_inv _ _ _ _ Hv) as [Rv _].
    unfold parseIFD. rewrite Hec. cbn [bind]. rewrite Hv. cbn [bind].
    assert (E : trailerEnd ec = 2 + 12 * ec + 4)
      by (rewrite trailerEnd_mod; apply Z.mod_small; lia).
    rewrite E. rewrite (int_small (2 + 12 * ec + 4)) by lia.
    unfold addint. rewrite (int_small (2 + 12 * ec + 4 + v)) by lia.
    rewrite slice_Ok by lia. cbn [bind].
    rewrite int_small by lia.
    destruct (parseElements_Ok_when_fits b endian (Z.to_nat ec) 0) as [l ->];
      [lia | lia | lia | |].
    + intros k e0 Hk. apply Hvals. lia.
    + cbn [bind]. eexists. reflexivity.
Qed.

Lemma parseIFD_Ok_iff_witness :
  (exists d, parseIFD (skipn 8 tiffIndirect) LittleEndian = Ok d) <->
  (exists ec v,
     readElementCount (skipn 8 tiffIndirect) LittleEndian = Ok ec /\
     ec <= 5460 /\
     readValuesLength (skipn 8 tiffIndirect) LittleEndian ec = Ok v /\
     2 + 12 * ec + 4 + v <= len (skipn 8 tiffIndirect) /\
     forall k e0, 0 <= k < ec ->
                  newIFDElement (slotAt (skipn 8 tiffIndirect) k) LittleEndian
                  = Ok e0 ->
                  valueFits (skipn 8 tiffIndirect) LittleEndian e0).
Proof.
  apply (parseIFD_Ok_iff (skipn 8 tiffIndirect) LittleEndian).
  vm_compute. discriminate.
Defined.
